(** * kws_watson: keyword index and keyword-biased transcription

    A shallow embedding of [kws_watson.py].  The module reads a metadata
    table with [csv.DictReader], builds a [{stimulus: [keywords]}]
    dictionary ([get_keywords]), and for every row of the same table asks
    the speech service for a transcription biased towards the stimulus'
    keywords ([transcribe]), appending one line per row to an output
    table ([__main__]).

    Python values are modelled as follows.
    - [str] is [string]; [x in s] on strings is [str_in].
    - A [dict] with string keys is an association list in insertion
      order, without repeated keys ([dict]); iteration visits the keys
      in that order.
    - A raised exception is the [Raise] branch of [result].
    - A row yielded by [csv.DictReader] is a [dict string]: one item per
      column of the header, in header order, each value a string.  A
      column that the header lacks is a key that the row lacks.  Every
      data line is taken to have as many fields as the header, so the
      values that [DictReader] makes up for shorter and longer lines do
      not occur.
    - The speech service is outside the program: it is a variable of
      the development, a transition on an abstract service state.

    The module [Raw], further down, is the same program without the
    assumptions on the lines and on the spots: its rows are built from
    the lines of the file as [csv.DictReader] builds them, and a spot
    is the dictionary that the service sent.  What depends on those
    assumptions is stated and proved on [Raw]. *)

From Stdlib Require Import String Ascii List Bool Arith Lia ZArith.
From Stdlib Require Import SpecFloat.
Import ListNotations.

Local Open Scope string_scope.
Local Open Scope list_scope.

(** ** Exceptions *)

Inductive exn : Type :=
| KeyError (key : string)
| IndexError
| ValueError
| ServiceError (msg : string).

Inductive result (A : Type) : Type :=
| Ok (a : A)
| Raise (e : exn).

Arguments Ok {A} a.
Arguments Raise {A} e.

Definition bind {A B : Type} (c : result A) (k : A -> result B) : result B :=
  match c with
  | Ok a => k a
  | Raise e => Raise e
  end.

Notation "x <- c ;; k" := (bind c (fun x => k))
  (at level 61, c at next level, right associativity).

(** ** Strings *)

(** [needle in hay]: [needle] occurs in [hay] as a contiguous run of
    characters.  The empty string occurs in every string. *)
Fixpoint str_in (needle hay : string) : bool :=
  prefix needle hay ||
  match hay with
  | EmptyString => false
  | String _ hay' => str_in needle hay'
  end.

(** What [str_in] decides. *)
Definition is_substring (needle hay : string) : Prop :=
  exists before after, hay = (before ++ needle ++ after)%string.

(** [s.split(sep)] for a one-character separator. *)
Fixpoint split (sep : ascii) (s : string) : list string :=
  match s with
  | EmptyString => [EmptyString]
  | String c s' =>
      if Ascii.eqb c sep then EmptyString :: split sep s'
      else match split sep s' with
           | [] => [String c EmptyString]
           | w :: ws => String c w :: ws
           end
  end.

(** [s.startswith(c)] and [s.endswith(c)] for a one-character [c]. *)
Definition startswith (s : string) (c : ascii) : bool :=
  match s with
  | EmptyString => false
  | String a _ => Ascii.eqb a c
  end.

Fixpoint endswith (s : string) (c : ascii) : bool :=
  match s with
  | EmptyString => false
  | String a s' =>
      match s' with
      | EmptyString => Ascii.eqb a c
      | String _ _ => endswith s' c
      end
  end.

(** A string is true when it is not empty. *)
Definition truthy (s : string) : bool :=
  match s with
  | EmptyString => false
  | String _ _ => true
  end.

(** ** Lists *)

(** [l[i]] *)
Definition item {A : Type} (l : list A) (i : nat) : result A :=
  match nth_error l i with
  | Some a => Ok a
  | None => Raise IndexError
  end.

(** [l[-n:]] *)
Definition last_items {A : Type} (n : nat) (l : list A) : list A :=
  skipn (length l - n) l.

(** ** Dictionaries *)

Definition dict (V : Type) : Type := list (string * V).

(** [k in d] *)
Definition contains {V : Type} (d : dict V) (k : string) : bool :=
  existsb (fun kv => String.eqb (fst kv) k) d.

(** [d[k]] *)
Fixpoint getitem {V : Type} (d : dict V) (k : string) : result V :=
  match d with
  | [] => Raise (KeyError k)
  | (k', v) :: d' => if String.eqb k' k then Ok v else getitem d' k
  end.

(** [d[k] = v]: a present key keeps its place, a new key goes last. *)
Fixpoint setitem {V : Type} (d : dict V) (k : string) (v : V) : dict V :=
  match d with
  | [] => [(k, v)]
  | (k', v') :: d' =>
      if String.eqb k' k then (k', v) :: d' else (k', v') :: setitem d' k v
  end.

Definition keys {V : Type} (d : dict V) : list string := map fst d.
Definition values {V : Type} (d : dict V) : list V := map snd d.

(** ** The metadata table *)

(** What [csv.DictReader] presents: the header and one dictionary per
    data line. *)
Record csv_table : Type := {
  fieldnames : list string;
  rows : list (dict string)
}.

(** ** get_keywords *)

(** The inner loop of [get_keywords]:
<<
    same = []
    for img in keywords:
        if keywords[img][0] in row['img'] or keywords[img][1] in row['img']:
            same = keywords[img]
            break
>>
    [imgs] is what is left of the iteration over the keys. *)
Fixpoint find_same (keywords : dict (list string)) (imgs : list string)
    (row_img : string) : result (list string) :=
  match imgs with
  | [] => Ok []
  | img :: imgs' =>
      entry <- getitem keywords img ;;
      w0 <- item entry 0 ;;
      if str_in w0 row_img then Ok entry
      else
        w1 <- item entry 1 ;;
        if str_in w1 row_img then Ok entry
        else find_same keywords imgs' row_img
  end.

(** The body of [for row in csv_reader]. *)
Definition get_keywords_row (keywords : dict (list string))
    (row : dict string) : result (dict (list string)) :=
  img <- getitem row "img" ;;
  if negb (contains keywords img) then
    secondary <- getitem row "secondary" ;;
    if truthy secondary then
      dominant <- getitem row "dominant" ;;
      Ok (setitem keywords img [dominant; secondary])
    else
      same <- find_same keywords (keys keywords) img ;;
      match same with
      | [] => Ok keywords
      | _ :: _ =>
          s0 <- item same 0 ;;
          s1 <- item same 1 ;;
          Ok (setitem keywords img [s0; s1])
      end
  else Ok keywords.

Fixpoint get_keywords_rows (keywords : dict (list string))
    (csv_reader : list (dict string)) : result (dict (list string)) :=
  match csv_reader with
  | [] => Ok keywords
  | row :: csv_reader' =>
      keywords' <- get_keywords_row keywords row ;;
      get_keywords_rows keywords' csv_reader'
  end.

(** [get_keywords(index_csv_path)], on the table read from that path.
    The [print(keywords)] before the return is left out. *)
Definition get_keywords (index_csv : csv_table) : result (dict (list string)) :=
  get_keywords_rows [] (rows index_csv).

(** ** The service response *)

(** A number or a string, as they come out of the decoded JSON
    response and go into [csv_writer.writerow]. *)
Inductive pyvalue : Type :=
| PyStr (s : string)
| PyInt (z : Z)
| PyFloat (f : spec_float).

(** One keyword spot, [{'normalized_text': .., 'start_time': ..,
    'confidence': .., 'end_time': ..}]; its items are in this order, as
    in the response shown in [transcribe]. *)
Record KeywordResult : Type := {
  normalized_text : pyvalue;
  start_time : pyvalue;
  confidence : pyvalue;
  end_time : pyvalue
}.

(** [list(transcript.values())] *)
Definition KeywordResult_values (t : KeywordResult) : list pyvalue :=
  [normalized_text t; start_time t; confidence t; end_time t].

(** One generic alternative of a result segment. *)
Record Alternative : Type := {
  timestamps : list (string * pyvalue * pyvalue);
  alt_confidence : pyvalue;
  transcript : string;
  word_confidence : list (string * pyvalue)
}.

(** One result segment.  ['keywords_result'] may be missing. *)
Record SpeechRecognitionResult : Type := {
  keywords_result : option (dict (list KeywordResult));
  alternatives : list Alternative;
  final : bool
}.

(** ** transcribe *)

(** [{'normalized_text': '', 'start_time': '', 'confidence': '',
    'end_time': ''}] *)
Definition no_keyword : KeywordResult :=
  {| normalized_text := PyStr EmptyString;
     start_time := PyStr EmptyString;
     confidence := PyStr EmptyString;
     end_time := PyStr EmptyString |}.

(** The condition [results and 'keywords_result' in results[0] and
    results[0]['keywords_result']]: the mapping that it ends on when it
    is true. *)
Definition spotted (results : list SpeechRecognitionResult)
  : option (dict (list KeywordResult)) :=
  match results with
  | [] => None
  | first :: _ =>
      match keywords_result first with
      | None => None
      | Some [] => None
      | Some (kv :: kvs) => Some (kv :: kvs)
      end
  end.

(** What [transcribe] does with the ['results'] of the response. *)
Definition transcribe_results (results : list SpeechRecognitionResult)
  : result KeywordResult :=
  match spotted results with
  | Some spots =>
      key <- item (keys spots) 0 ;;
      hits <- getitem spots key ;;
      item hits 0
  | None => Ok no_keyword
  end.

(** ** Paths and columns of the driver *)

Definition data_path : string := "/home/sichao/Documents/wc/Data".

Definition kws_columns : list string :=
  ["kws_word"; "kws_start_t"; "kws_conf"; "kws_end_t"].

(** [os.path.join(a, *p)] on POSIX paths. *)
Fixpoint join (a : string) (p : list string) : string :=
  match p with
  | [] => a
  | b :: p' =>
      if startswith b "/" then join b p'
      else if negb (truthy a) || endswith a "/" then join (a ++ b)%string p'
      else join (a ++ "/" ++ b)%string p'
  end.

(** [path1, path2, path3 = l] *)
Definition unpack3 {A : Type} (l : list A) : result (A * A * A) :=
  match l with
  | [a; b; c] => Ok (a, b, c)
  | _ => Raise ValueError
  end.

Section Service.

(** The state of the world outside the program, as far as the speech
    service depends on it. *)
Variable world : Type.

(** [open(audio_path, 'rb')] followed by [service.recognize(audio=..,
    content_type='audio/wav', timestamps=True, word_confidence=True,
    keywords=keywords, keywords_threshold=0).get_result()['results']]. *)
Variable recognize :
  world -> string -> list string ->
  world * result (list SpeechRecognitionResult).

Definition transcribe (w : world) (audio_path : string)
    (keywords : list string) : world * result KeywordResult :=
  let (w', response) := recognize w audio_path keywords in
  (w', results <- response ;; transcribe_results results).

(** ** The driver *)

(** What the program has written and what it has asked of the
    service so far. *)
Record state : Type := {
  service : world;
  output_file : list (list pyvalue)
}.

(** [csv_writer.writerow(line)] *)
Definition writerow (st : state) (line : list pyvalue) : state :=
  {| service := service st; output_file := output_file st ++ [line] |}.

(** The body of the loop over the rows.  The progress message on the
    standard output and the counter [line], which nothing reads, are
    left out. *)
Definition main_row (keywords : dict (list string)) (st : state)
    (row : dict string) : state * result unit :=
  match
    (path <- getitem row "audio_path" ;;
     parts <- unpack3 (last_items 3 (split "/" path)) ;;
     let '(path1, path2, path3) := parts in
     img <- getitem row "img" ;;
     words <- getitem keywords img ;;
     Ok (join data_path [path1; path2; path3], words))
  with
  | Raise e => (st, Raise e)
  | Ok (audio_path, words) =>
      match transcribe (service st) audio_path words with
      | (w', Raise e) =>
          ({| service := w'; output_file := output_file st |}, Raise e)
      | (w', Ok transcript) =>
          (writerow {| service := w'; output_file := output_file st |}
             (map PyStr (values row) ++ KeywordResult_values transcript),
           Ok tt)
      end
  end.

Fixpoint main_rows (keywords : dict (list string)) (st : state)
    (csv_reader : list (dict string)) : state * result unit :=
  match csv_reader with
  | [] => (st, Ok tt)
  | row :: csv_reader' =>
      match main_row keywords st row with
      | (st', Ok _) => main_rows keywords st' csv_reader'
      | (st', Raise e) => (st', Raise e)
      end
  end.

(** The [__main__] block: the table at [index_csv_path] is read twice,
    by [get_keywords] and by the loop; the output file is opened for
    appending. *)
Definition main (index_csv : csv_table) (st : state) : state * result unit :=
  match get_keywords index_csv with
  | Raise e => (st, Raise e)
  | Ok keywords =>
      main_rows keywords
        (writerow st (map PyStr (fieldnames index_csv ++ kws_columns)))
        (rows index_csv)
  end.

End Service.

Arguments service {world} s.
Arguments output_file {world} s.
Arguments writerow {world} st line.
Arguments transcribe {world} recognize w audio_path keywords.
Arguments main_row {world} recognize keywords st row.
Arguments main_rows {world} recognize keywords st csv_reader.
Arguments main {world} recognize index_csv st.

(** ** Notions used to state the properties *)

(** A dictionary does not repeat a key. *)
Definition unique_keys {V : Type} (d : dict V) : Prop := NoDup (keys d).

(** One value of the keyword index: exactly two strings, the second
    one not empty. *)
Definition two_keywords (entry : list string) : Prop :=
  exists dominant secondary,
    entry = [dominant; secondary] /\ secondary <> EmptyString.

(** No word of [entry] occurs in [img]. *)
Definition no_word_in (img : string) (entry : list string) : Prop :=
  forall w, In w entry -> ~ is_substring w img.

(** Some word of [entry] occurs in [img]. *)
Definition word_in (img : string) (entry : list string) : bool :=
  existsb (fun w => str_in w img) entry.

(** The index as [get_keywords] keeps it. *)
Definition keyword_index (keywords : dict (list string)) : Prop :=
  unique_keys keywords /\ Forall (fun kv => two_keywords (snd kv)) keywords.

(** The scan of [keywords] on behalf of a row with stimulus [img] gets
    as far as the entry of [target]: no entry before it has a word that
    occurs in [img]. *)
Definition scan_reaches (keywords : dict (list string)) (img target : string)
  : Prop :=
  exists before entry after,
    keywords = before ++ (target, entry) :: after /\
    Forall (fun kv => no_word_in img (snd kv)) before.

(** Every row has one item for every name of the header, in the order
    of the header. *)
Definition rows_follow_header (t : csv_table) : Prop :=
  Forall (fun row => keys row = fieldnames t) (rows t).

(** The table has the column [name]. *)
Definition has_column (t : csv_table) (name : string) : Prop :=
  In name (fieldnames t).

(** The row gives a dominant and a secondary word, both not empty. *)
Definition explicit_row (row : dict string) : Prop :=
  exists img dominant secondary,
    getitem row "img" = Ok img /\
    getitem row "dominant" = Ok dominant /\ dominant <> EmptyString /\
    getitem row "secondary" = Ok secondary /\ secondary <> EmptyString.

(** ** Tables and services used as concrete inputs *)

Definition metadata_columns : list string :=
  ["img"; "audio_path"; "dominant"; "secondary"].

Definition metadata_row (img audio_path dominant secondary : string)
  : dict string :=
  [("img", img); ("audio_path", audio_path);
   ("dominant", dominant); ("secondary", secondary)].

(** The explicit row of stimulus [A], with the words wolf and wolves. *)
Definition row_A : dict string :=
  metadata_row "A" "Data/rep1/trgt_audio/A.wav" "wolf" "wolves".

(** A row for [img] with both word fields empty. *)
Definition row_without_words (img : string) : dict string :=
  metadata_row img "Data/rep1/trgt_audio/A2.wav" EmptyString EmptyString.

(** The row of [A], then a row for [img] without words. *)
Definition wolf_table (img : string) : csv_table :=
  {| fieldnames := metadata_columns;
     rows := [row_A; row_without_words img] |}.

(** A row without words for stimulus [x], then an explicit row for the
    same stimulus. *)
Definition row_x_late : dict string :=
  metadata_row "x" "Data/rep2/trgt_audio/x2.wav" "a" "b".

Definition late_table : csv_table :=
  {| fieldnames := metadata_columns;
     rows := [row_without_words "x"; row_x_late] |}.

(** A table with the columns [img] and [audio_path] only. *)
Definition bare_table : csv_table :=
  {| fieldnames := ["img"; "audio_path"];
     rows := [[("img", "cat.jpg"); ("audio_path", "/d/s1/x/cat.wav")]] |}.

(** The table of the end-to-end scenario. *)
Definition row_cat : dict string :=
  metadata_row "cat.jpg" "/d/s1/x/cat.wav" "cat" "kitten".

Definition cat_table : csv_table :=
  {| fieldnames := metadata_columns; rows := [row_cat] |}.

(** A row whose audio path has two segments only. *)
Definition row_dog : dict string :=
  metadata_row "dog.jpg" "x/dog.wav" "dog" "puppy".

Definition short_path_table : csv_table :=
  {| fieldnames := metadata_columns; rows := [row_cat; row_dog] |}.

(** 1.0, 0.9 and 1.3 as binary64 numbers. *)
Definition float_1_0 : spec_float := S754_finite false 4503599627370496 (-52).
Definition float_0_9 : spec_float := S754_finite false 8106479329266893 (-53).
Definition float_1_3 : spec_float := S754_finite false 5854679515581645 (-52).

Definition cat_spot : KeywordResult :=
  {| normalized_text := PyStr "cat";
     start_time := PyFloat float_1_0;
     confidence := PyFloat float_0_9;
     end_time := PyFloat float_1_3 |}.

(** A service that spots the first keyword it is given, always with the
    same times, and counts the requests. *)
Definition spotting_service (w : nat) (audio_path : string)
    (keywords : list string) : nat * result (list SpeechRecognitionResult) :=
  (S w,
   Ok [{| keywords_result :=
            match keywords with
            | [] => None
            | k :: _ =>
                Some [(k, [{| normalized_text := PyStr k;
                              start_time := PyFloat float_1_0;
                              confidence := PyFloat float_0_9;
                              end_time := PyFloat float_1_3 |}])]
            end;
          alternatives := [];
          final := true |}]).

Definition start_state : state nat := {| service := 0; output_file := [] |}.

(** What the driver has written for [cat_table] once it is through. *)
Definition cat_header : list pyvalue :=
  [PyStr "img"; PyStr "audio_path"; PyStr "dominant"; PyStr "secondary";
   PyStr "kws_word"; PyStr "kws_start_t"; PyStr "kws_conf"; PyStr "kws_end_t"].

Definition cat_line : list pyvalue :=
  [PyStr "cat.jpg"; PyStr "/d/s1/x/cat.wav"; PyStr "cat"; PyStr "kitten";
   PyStr "cat"; PyFloat float_1_0; PyFloat float_0_9; PyFloat float_1_3].

Definition cat_final_state : state nat :=
  {| service := 1; output_file := [cat_header; cat_line] |}.

(** The words of [entry], stored under [img], are those of a row of
    [csv_reader] with a non-empty secondary field; that row is a row of
    [img] itself, or one of the two words occurs in [img]. *)
Definition from_explicit_row (csv_reader : list (dict string))
    (img : string) (entry : list string) : Prop :=
  exists row dominant secondary,
    In row csv_reader /\
    getitem row "dominant" = Ok dominant /\
    getitem row "secondary" = Ok secondary /\
    secondary <> EmptyString /\
    entry = [dominant; secondary] /\
    (getitem row "img" = Ok img \/
     is_substring dominant img \/ is_substring secondary img).

(** A service that is out of order. *)
Definition failing_service (w : nat) (audio_path : string)
    (keywords : list string) : nat * result (list SpeechRecognitionResult) :=
  (S w, Raise (ServiceError "unavailable")).

(** * The program on whatever the reader and the service hand over

    The definitions above take every value of a row to be a string and
    every keyword spot to have its four fields.  [Raw] is the program
    without those two assumptions: the rows are built from the lines of
    the file as [csv.DictReader] builds them, with [None] for the names
    of the header that a short line has no field for and the fields
    beyond the header collected under the key [None]; a keyword spot is
    the dictionary that the service sent, whatever its items. *)

Module Raw.

(** ** Values *)

(** A value of a row. *)
Inductive cell : Type :=
| Field (s : string)
| Missing
| Rest (l : list string).

(** A key of a row or of the index: a string or [None]. *)
Definition key : Type := option string.

Definition key_eqb (a b : key) : bool :=
  match a, b with
  | Some x, Some y => String.eqb x y
  | None, None => true
  | _, _ => false
  end.

(** What goes into [csv_writer.writerow]: values of the row and values
    of the transcription. *)
Inductive written : Type :=
| Cell (c : cell)
| Json (v : pyvalue).

(** ** Exceptions *)

Inductive exn : Type :=
| KeyError (k : key)
| IndexError
| ValueError
| TypeError
| AttributeError
| ServiceError (msg : string).

Inductive result (A : Type) : Type :=
| Ok (a : A)
| Raise (e : exn).

Arguments Ok {A} a.
Arguments Raise {A} e.

Definition bind {A B : Type} (c : result A) (k : A -> result B) : result B :=
  match c with
  | Ok a => k a
  | Raise e => Raise e
  end.

Notation "x <-- c ;; k" := (bind c (fun x => k))
  (at level 61, c at next level, right associativity).

(** ** Lists and dictionaries *)

(** [l[i]] *)
Definition item {A : Type} (l : list A) (i : nat) : result A :=
  match nth_error l i with
  | Some a => Ok a
  | None => Raise IndexError
  end.

(** [path1, path2, path3 = l] *)
Definition unpack3 {A : Type} (l : list A) : result (A * A * A) :=
  match l with
  | [a; b; c] => Ok (a, b, c)
  | _ => Raise ValueError
  end.

(** A dictionary whose keys are strings or [None], in insertion order. *)
Definition rdict (V : Type) : Type := list (key * V).

(** [k in d] *)
Definition contains {V : Type} (d : rdict V) (k : key) : bool :=
  existsb (fun kv => key_eqb (fst kv) k) d.

(** [d[k]] *)
Fixpoint getitem {V : Type} (d : rdict V) (k : key) : result V :=
  match d with
  | [] => Raise (KeyError k)
  | (k', v) :: d' => if key_eqb k' k then Ok v else getitem d' k
  end.

(** [d[k] = v] *)
Fixpoint setitem {V : Type} (d : rdict V) (k : key) (v : V) : rdict V :=
  match d with
  | [] => [(k, v)]
  | (k', v') :: d' =>
      if key_eqb k' k then (k', v) :: d' else (k', v') :: setitem d' k v
  end.

Definition keys {K V : Type} (d : list (K * V)) : list K := map fst d.
Definition values {K V : Type} (d : list (K * V)) : list V := map snd d.

(** [d[k]] for a dictionary with string keys only. *)
Definition getitem_str {V : Type} (d : dict V) (k : string) : result V :=
  getitem (map (fun kv => (Some (fst kv), snd kv)) d) (Some k).

(** ** csv.DictReader *)

(** The lines of the file as [csv.reader] yields them, each a list of
    fields; a blank line is the empty list. *)
Definition csv_file : Type := list (list string).

(** [csv_reader.fieldnames]: the first line, [None] for a file without
    lines. *)
Definition fieldnames (f : csv_file) : option (list string) :=
  match f with
  | [] => None
  | names :: _ => Some names
  end.

(** [dict(zip(fieldnames, row))] *)
Definition dict_zip (names line : list string) : rdict cell :=
  fold_left (fun d nx => setitem d (Some (fst nx)) (Field (snd nx)))
    (combine names line) [].

(** One row of the reader:
<<
    d = dict(zip(self.fieldnames, row))
    lf = len(self.fieldnames)
    lr = len(row)
    if lf < lr:
        d[self.restkey] = row[lf:]
    elif lf > lr:
        for key in self.fieldnames[lr:]:
            d[key] = self.restval
>>
    with [restkey] and [restval] both [None]. *)
Definition read_row (names line : list string) : rdict cell :=
  let d := dict_zip names line in
  if Nat.ltb (length names) (length line) then
    setitem d None (Rest (skipn (length names) line))
  else
    fold_left (fun d name => setitem d (Some name) Missing)
      (skipn (length line) names) d.

Definition blank (line : list string) : bool :=
  match line with
  | [] => true
  | _ :: _ => false
  end.

(** The rows that [for row in csv_reader] goes through: one for every
    line after the first that is not blank. *)
Definition DictReader (f : csv_file) : list (rdict cell) :=
  match f with
  | [] => []
  | names :: lines =>
      map (read_row names) (filter (fun line => negb (blank line)) lines)
  end.

(** ** get_keywords *)

(** The value can be a key of a dictionary. *)
Definition hashable (c : cell) : result key :=
  match c with
  | Field s => Ok (Some s)
  | Missing => Ok None
  | Rest _ => Raise TypeError
  end.

(** The value counts as true. *)
Definition truthy (c : cell) : bool :=
  match c with
  | Field s => truthy s
  | Missing => false
  | Rest l => negb (blank l)
  end.

(** [w in container] *)
Definition py_in (w container : cell) : result bool :=
  match container with
  | Field s =>
      match w with
      | Field x => Ok (str_in x s)
      | _ => Raise TypeError
      end
  | Missing => Raise TypeError
  | Rest l =>
      Ok match w with
         | Field x => existsb (String.eqb x) l
         | _ => false
         end
  end.

(** The inner loop of [get_keywords]. *)
Fixpoint find_same (keywords : rdict (list cell)) (imgs : list key)
    (row_img : cell) : result (list cell) :=
  match imgs with
  | [] => Ok []
  | img :: imgs' =>
      entry <-- getitem keywords img ;;
      w0 <-- item entry 0 ;;
      b0 <-- py_in w0 row_img ;;
      if b0 then Ok entry
      else
        w1 <-- item entry 1 ;;
        b1 <-- py_in w1 row_img ;;
        if b1 then Ok entry
        else find_same keywords imgs' row_img
  end.

(** The body of [for row in csv_reader]. *)
Definition get_keywords_row (keywords : rdict (list cell))
    (row : rdict cell) : result (rdict (list cell)) :=
  img <-- getitem row (Some "img") ;;
  k <-- hashable img ;;
  if negb (contains keywords k) then
    secondary <-- getitem row (Some "secondary") ;;
    if truthy secondary then
      dominant <-- getitem row (Some "dominant") ;;
      Ok (setitem keywords k [dominant; secondary])
    else
      same <-- find_same keywords (keys keywords) img ;;
      match same with
      | [] => Ok keywords
      | _ :: _ =>
          s0 <-- item same 0 ;;
          s1 <-- item same 1 ;;
          Ok (setitem keywords k [s0; s1])
      end
  else Ok keywords.

Fixpoint get_keywords_rows (keywords : rdict (list cell))
    (csv_reader : list (rdict cell)) : result (rdict (list cell)) :=
  match csv_reader with
  | [] => Ok keywords
  | row :: csv_reader' =>
      keywords' <-- get_keywords_row keywords row ;;
      get_keywords_rows keywords' csv_reader'
  end.

Definition get_keywords (index_csv : csv_file) : result (rdict (list cell)) :=
  get_keywords_rows [] (DictReader index_csv).

(** ** transcribe *)

(** One result segment; a keyword spot is a dictionary. *)
Record SpeechRecognitionResult : Type := {
  keywords_result : option (dict (list (dict pyvalue)));
  alternatives : list Alternative;
  final : bool
}.

(** [{'normalized_text': '', 'start_time': '', 'confidence': '',
    'end_time': ''}] *)
Definition no_keyword : dict pyvalue :=
  [("normalized_text", PyStr EmptyString);
   ("start_time", PyStr EmptyString);
   ("confidence", PyStr EmptyString);
   ("end_time", PyStr EmptyString)].

(** The condition [results and 'keywords_result' in results[0] and
    results[0]['keywords_result']]: the mapping that it ends on when it
    is true. *)
Definition spotted (results : list SpeechRecognitionResult)
  : option (dict (list (dict pyvalue))) :=
  match results with
  | [] => None
  | first :: _ =>
      match keywords_result first with
      | None => None
      | Some [] => None
      | Some (kv :: kvs) => Some (kv :: kvs)
      end
  end.

Definition transcribe_results (results : list SpeechRecognitionResult)
  : result (dict pyvalue) :=
  match spotted results with
  | Some spots =>
      key <-- item (keys spots) 0 ;;
      hits <-- getitem_str spots key ;;
      item hits 0
  | None => Ok no_keyword
  end.

Section Service.

Variable world : Type.

(** The request: the audio file is opened and sent with the keywords,
    which are the two values stored for the stimulus. *)
Variable recognize :
  world -> string -> list cell ->
  world * result (list SpeechRecognitionResult).

Definition transcribe (w : world) (audio_path : string)
    (keywords : list cell) : world * result (dict pyvalue) :=
  let (w', response) := recognize w audio_path keywords in
  (w', results <-- response ;; transcribe_results results).

(** ** The driver *)

Record state : Type := {
  service : world;
  output_file : list (list written)
}.

Definition writerow (st : state) (line : list written) : state :=
  {| service := service st; output_file := output_file st ++ [line] |}.

(** [row['audio_path'].split('/')]: only a string has [split]. *)
Definition split_path (c : cell) : result (list string) :=
  match c with
  | Field path => Ok (split "/" path)
  | _ => Raise AttributeError
  end.

(** The body of the loop over the rows. *)
Definition main_row (keywords : rdict (list cell)) (st : state)
    (row : rdict cell) : state * result unit :=
  match
    (path <-- getitem row (Some "audio_path") ;;
     segments <-- split_path path ;;
     parts <-- unpack3 (last_items 3 segments) ;;
     let '(path1, path2, path3) := parts in
     img <-- getitem row (Some "img") ;;
     k <-- hashable img ;;
     words <-- getitem keywords k ;;
     Ok (join data_path [path1; path2; path3], words))
  with
  | Raise e => (st, Raise e)
  | Ok (audio_path, words) =>
      match transcribe (service st) audio_path words with
      | (w', Raise e) =>
          ({| service := w'; output_file := output_file st |}, Raise e)
      | (w', Ok transcript) =>
          (writerow {| service := w'; output_file := output_file st |}
             (map Cell (values row) ++
              map Json (values transcript)),
           Ok tt)
      end
  end.

Fixpoint main_rows (keywords : rdict (list cell)) (st : state)
    (csv_reader : list (rdict cell)) : state * result unit :=
  match csv_reader with
  | [] => (st, Ok tt)
  | row :: csv_reader' =>
      match main_row keywords st row with
      | (st', Ok _) => main_rows keywords st' csv_reader'
      | (st', Raise e) => (st', Raise e)
      end
  end.

(** The [__main__] block.  [csv_reader.fieldnames + [...]] raises when
    the file has no line at all. *)
Definition main (index_csv : csv_file) (st : state) : state * result unit :=
  match get_keywords index_csv with
  | Raise e => (st, Raise e)
  | Ok keywords =>
      match fieldnames index_csv with
      | None => (st, Raise TypeError)
      | Some names =>
          main_rows keywords
            (writerow st (map (fun name => Cell (Field name))
                            (names ++ kws_columns)))
            (DictReader index_csv)
      end
  end.

End Service.

Arguments service {world} s.
Arguments output_file {world} s.
Arguments writerow {world} st line.
Arguments transcribe {world} recognize w audio_path keywords.
Arguments main_row {world} recognize keywords st row.
Arguments main_rows {world} recognize keywords st csv_reader.
Arguments main {world} recognize index_csv st.

End Raw.

(** ** Notions used to state the properties of [Raw] *)

(** Every line that is not blank has at least as many fields as the
    header has names. *)
Definition complete_lines (names : list string) (lines : list (list string))
  : Prop :=
  Forall (fun line => Raw.blank line = true \/ length names <= length line)
    lines.

(** A value of the index in [Raw]: two elements, the second one a string
    that is not empty, the first one a string or [None]. *)
Definition stored_entry (entry : list Raw.cell) : Prop :=
  exists dominant secondary,
    entry = [dominant; Raw.Field secondary] /\
    secondary <> EmptyString /\
    (dominant = Raw.Missing \/ exists word, dominant = Raw.Field word).

(** A value of the index that is two strings, the second one not
    empty. *)
Definition stored_words (entry : list Raw.cell) : Prop :=
  exists dominant secondary,
    entry = [Raw.Field dominant; Raw.Field secondary] /\
    secondary <> EmptyString.

(** In a row of the reader the collected fields of a long line are
    under the key [None] only. *)
Definition reader_row (row : Raw.rdict Raw.cell) : Prop :=
  Forall (fun kv =>
            match fst kv, snd kv with
            | Some _, Raw.Rest _ => False
            | _, _ => True
            end) row.

(** Every value of the row under a name of the header is a string. *)
Definition complete_row (row : Raw.rdict Raw.cell) : Prop :=
  Forall (fun kv =>
            match fst kv with
            | Some _ => exists s, snd kv = Raw.Field s
            | None => True
            end) row.

(** The index of [Raw] in good order: distinct keys, values as
    [stored_entry] has them. *)
Definition raw_index (keywords : Raw.rdict (list Raw.cell)) : Prop :=
  NoDup (Raw.keys keywords) /\
  Forall (fun kv => stored_entry (snd kv)) keywords.

(** The index of [Raw] with strings only. *)
Definition words_index (keywords : Raw.rdict (list Raw.cell)) : Prop :=
  NoDup (Raw.keys keywords) /\
  Forall (fun kv => stored_words (snd kv)) keywords.

(** ** From the tables with complete lines to [Raw] *)

(** The dictionary [dict(zip(names, line))] with its values as
    strings. *)
Definition zip_row (names line : list string) : dict string :=
  fold_left (fun d nx => setitem d (fst nx) (snd nx)) (combine names line) [].

(** The table that the definitions outside [Raw] work on, for a file
    with the header [names] and the lines [lines]. *)
Definition table_of_file (names : list string) (lines : list (list string))
  : csv_table :=
  {| fieldnames := names;
     rows := map (zip_row names)
               (filter (fun line => negb (Raw.blank line)) lines) |}.

(** A dictionary with string keys and values, as a dictionary of
    [Raw]. *)
Definition raw_of_dict {V W : Type} (g : V -> W) (d : dict V) : Raw.rdict W :=
  map (fun kv => (Some (fst kv), g (snd kv))) d.

Definition raw_of_index (keywords : dict (list string))
  : Raw.rdict (list Raw.cell) :=
  raw_of_dict (map Raw.Field) keywords.

Definition raw_of_exn (e : exn) : Raw.exn :=
  match e with
  | KeyError k => Raw.KeyError (Some k)
  | IndexError => Raw.IndexError
  | ValueError => Raw.ValueError
  | ServiceError msg => Raw.ServiceError msg
  end.

Definition raw_of_result {A B : Type} (g : A -> B) (r : result A)
  : Raw.result B :=
  match r with
  | Ok a => Raw.Ok (g a)
  | Raise e => Raw.Raise (raw_of_exn e)
  end.

(** The row of [Raw] has, under every name, what the row with string
    values has. *)
Definition same_fields (row : dict string) (raw : Raw.rdict Raw.cell) : Prop :=
  forall name,
    Raw.getitem raw (Some name) = raw_of_result Raw.Field (getitem row name).

(** ** Files and services used as concrete inputs of [Raw] *)

(** A table whose only data line stops before the dominant field. *)
Definition short_line_file : Raw.csv_file :=
  [["img"; "secondary"; "dominant"]; ["A"; "wolves"]].

(** The table of the end-to-end scenario, as lines. *)
Definition cat_file : Raw.csv_file :=
  [["img"; "audio_path"; "dominant"; "secondary"];
   ["cat.jpg"; "/d/s1/x/cat.wav"; "cat"; "kitten"]].

(** The header [img,audio_path] and one line. *)
Definition bare_file : Raw.csv_file :=
  [["img"; "audio_path"]; ["cat.jpg"; "/d/s1/x/cat.wav"]].

(** A table without any secondary word; the second line is short. *)
Definition wordless_file : Raw.csv_file :=
  [["img"; "audio_path"; "dominant"; "secondary"];
   ["A"; "Data/rep1/trgt_audio/A.wav"; EmptyString; EmptyString];
   ["A_trial2"; "Data/rep1/trgt_audio/A2.wav"]].

(** A service that answers every request with one spot of three
    items. *)
Definition three_item_spot : dict pyvalue :=
  [("normalized_text", PyStr "cat");
   ("start_time", PyFloat float_1_0);
   ("end_time", PyFloat float_1_3)].

Definition three_item_service (w : nat) (audio_path : string)
    (keywords : list Raw.cell)
  : nat * Raw.result (list Raw.SpeechRecognitionResult) :=
  (S w,
   Raw.Ok [{| Raw.keywords_result := Some [("cat", [three_item_spot])];
              Raw.alternatives := [];
              Raw.final := true |}]).

(** A service that names a keyword without any spot. *)
Definition no_spot_service (w : nat) (audio_path : string)
    (keywords : list Raw.cell)
  : nat * Raw.result (list Raw.SpeechRecognitionResult) :=
  (S w,
   Raw.Ok [{| Raw.keywords_result := Some [("wolf", [])];
              Raw.alternatives := [];
              Raw.final := true |}]).



(** * Properties *)

(** ** The result monad *)

Lemma bind_Ok_inv {A B : Type} (c : result A) (k : A -> result B) (b : B) :
  (x <- c ;; k x) = Ok b -> exists a, c = Ok a /\ k a = Ok b.
Proof.
  destruct c as [a | e]; simpl; intros H.
  - exists a. split; [reflexivity | exact H].
  - discriminate H.
Qed.

(** ** Substrings *)

Lemma prefix_true_iff (needle hay : string) :
  prefix needle hay = true <-> exists after, hay = (needle ++ after)%string.
Proof.
  revert hay. induction needle as [| a needle IH]; intros hay.
  - split; intros _.
    + exists hay. reflexivity.
    + destruct hay; reflexivity.
  - destruct hay as [| b hay].
    + simpl. split; [discriminate | intros [after H]; discriminate H].
    + simpl. destruct (ascii_dec a b) as [-> | Hab].
      * rewrite IH. split; intros [after H]; exists after.
        -- now rewrite H.
        -- now injection H.
      * split; [discriminate |].
        intros [after H]. injection H as Hb _. now elim Hab.
Qed.

Lemma str_in_unfold (needle hay : string) :
  str_in needle hay =
  prefix needle hay ||
  match hay with
  | EmptyString => false
  | String _ hay' => str_in needle hay'
  end.
Proof. destruct hay; reflexivity. Qed.

(** [str_in] is the occurrence of one string in another: exact
    substring matching, with no notion of word or token. *)
Lemma str_in_true_iff (needle hay : string) :
  str_in needle hay = true <-> is_substring needle hay.
Proof.
  unfold is_substring. induction hay as [| c hay IH].
  - rewrite str_in_unfold, orb_false_r, prefix_true_iff. split.
    + intros [after H]. exists EmptyString, after. exact H.
    + intros [before [after H]]. destruct before as [| b before].
      * exists after. exact H.
      * discriminate H.
  - rewrite str_in_unfold, orb_true_iff, prefix_true_iff, IH. split.
    + intros [[after H] | [before [after H]]].
      * exists EmptyString, after. exact H.
      * exists (String c before), after. simpl. now rewrite H.
    + intros [before [after H]]. destruct before as [| b before].
      * left. exists after. exact H.
      * right. exists before, after. simpl in H. now injection H.
Qed.


Lemma truthy_true_iff (s : string) : truthy s = true <-> s <> EmptyString.
Proof.
  destruct s; simpl; split; intros H.
  - discriminate H.
  - now elim H.
  - discriminate.
  - reflexivity.
Qed.

(** ** Dictionaries *)

Section Dict.

Context {V : Type}.
Implicit Types (d : dict V) (k : string) (v : V).

Lemma contains_true_iff d k : contains d k = true <-> In k (keys d).
Proof.
  unfold contains, keys. induction d as [| [k' v'] d IH]; simpl.
  - split; [discriminate | tauto].
  - rewrite orb_true_iff, IH, String.eqb_eq. tauto.
Qed.

Lemma contains_false_iff d k : contains d k = false <-> ~ In k (keys d).
Proof.
  rewrite <- contains_true_iff. destruct (contains d k); split; intros H.
  - discriminate H.
  - now elim H.
  - discriminate.
  - reflexivity.
Qed.

Lemma contains_one k v k' : contains [(k, v)] k' = String.eqb k k'.
Proof. unfold contains. simpl. apply orb_false_r. Qed.

Lemma contains_app d d' k :
  contains (d ++ d') k = contains d k || contains d' k.
Proof. unfold contains. apply existsb_app. Qed.

Lemma getitem_absent d k :
  contains d k = false -> getitem d k = Raise (KeyError k).
Proof.
  unfold contains. induction d as [| [k' v'] d IH]; simpl; intros H.
  - reflexivity.
  - apply orb_false_iff in H as [Hk Hd]. rewrite Hk. now apply IH.
Qed.

Lemma getitem_present d k :
  contains d k = true -> exists v, getitem d k = Ok v.
Proof.
  unfold contains. induction d as [| [k' v'] d IH]; simpl; intros H.
  - discriminate H.
  - destruct (String.eqb k' k).
    + now exists v'.
    + now apply IH.
Qed.

Lemma getitem_Ok_contains d k v : getitem d k = Ok v -> contains d k = true.
Proof.
  destruct (contains d k) eqn:E; [reflexivity |].
  rewrite (getitem_absent _ _ E). discriminate.
Qed.

Lemma getitem_Ok_In d k v : getitem d k = Ok v -> In (k, v) d.
Proof.
  induction d as [| [k' v'] d IH]; simpl; intros H.
  - discriminate H.
  - destruct (String.eqb k' k) eqn:E.
    + apply String.eqb_eq in E. injection H as ->. left. now rewrite E.
    + right. now apply IH.
Qed.

Lemma getitem_app_l d d' k v :
  getitem d k = Ok v -> getitem (d ++ d') k = Ok v.
Proof.
  induction d as [| [k' v'] d IH]; simpl; intros H.
  - discriminate H.
  - destruct (String.eqb k' k); [exact H | now apply IH].
Qed.

Lemma getitem_app_r d d' k :
  contains d k = false -> getitem (d ++ d') k = getitem d' k.
Proof.
  unfold contains. induction d as [| [k' v'] d IH]; simpl; intros H.
  - reflexivity.
  - apply orb_false_iff in H as [Hk Hd]. rewrite Hk. now apply IH.
Qed.

(** Storing under a key that is not there yet puts it last. *)
Lemma setitem_absent d k v :
  contains d k = false -> setitem d k v = d ++ [(k, v)].
Proof.
  unfold contains. induction d as [| [k' v'] d IH]; simpl; intros H.
  - reflexivity.
  - apply orb_false_iff in H as [Hk Hd]. rewrite Hk. f_equal. now apply IH.
Qed.

Lemma unique_keys_snoc d k v :
  unique_keys d -> contains d k = false -> unique_keys (d ++ [(k, v)]).
Proof.
  unfold unique_keys, keys. intros Hd Hk. rewrite map_app. simpl.
  apply contains_false_iff in Hk.
  apply NoDup_app; [exact Hd | constructor; [tauto | constructor] |].
  intros x Hx [<- | []]. now apply Hk.
Qed.

(** In a dictionary, the value found under the key of an item is the
    value of that item. *)
Lemma getitem_middle d d' k v :
  unique_keys (d ++ (k, v) :: d') -> getitem (d ++ (k, v) :: d') k = Ok v.
Proof.
  unfold unique_keys, keys. rewrite map_app. simpl. intros H.
  apply NoDup_remove_2 in H.
  rewrite getitem_app_r.
  - simpl. now rewrite String.eqb_refl.
  - apply contains_false_iff. intros Hin. apply H, in_or_app. now left.
Qed.

End Dict.

(** ** The scan for an entry with a word in the stimulus name *)


Lemma word_in_true_iff (img : string) (entry : list string) :
  word_in img entry = true <->
  exists w, In w entry /\ is_substring w img.
Proof.
  unfold word_in. rewrite existsb_exists.
  split; intros [w [Hin Hw]]; exists w; split; trivial;
    now apply str_in_true_iff.
Qed.

Lemma keyword_index_nil : keyword_index [].
Proof. split; [constructor | constructor]. Qed.

Lemma keyword_index_snoc keywords img dominant secondary :
  keyword_index keywords -> contains keywords img = false ->
  secondary <> EmptyString ->
  keyword_index (keywords ++ [(img, [dominant; secondary])]).
Proof.
  intros [Hu Hf] Himg Hs. split.
  - now apply unique_keys_snoc.
  - apply Forall_app. split; [exact Hf |].
    constructor; [| constructor]. now exists dominant, secondary.
Qed.

(** With the index in good order, the loop stops at the first entry
    with a word in [img] and leaves [same] empty when there is none. *)
Lemma find_same_find (keywords scanned todo : dict (list string))
    (img : string) :
  keyword_index keywords -> keywords = scanned ++ todo ->
  find_same keywords (keys todo) img =
  Ok match find (fun kv => word_in img (snd kv)) todo with
     | Some kv => snd kv
     | None => []
     end.
Proof.
  intros [Hu Hf]. revert scanned.
  induction todo as [| [k entry] todo IH]; intros scanned ->.
  - reflexivity.
  - simpl. rewrite (getitem_middle _ _ _ _ Hu). simpl.
    assert (He : two_keywords entry).
    { apply Forall_app in Hf as [_ Hf]. now inversion Hf. }
    destruct He as [dominant [secondary [-> _]]].
    unfold word_in. simpl. rewrite orb_false_r.
    destruct (str_in dominant img); simpl; [reflexivity |].
    destruct (str_in secondary img); simpl; [reflexivity |].
    apply (IH (scanned ++ [(k, [dominant; secondary])])).
    now rewrite <- app_assoc.
Qed.



(** ** One row of [get_keywords] *)

Lemma get_keywords_row_indexed keywords row img :
  getitem row "img" = Ok img -> contains keywords img = true ->
  get_keywords_row keywords row = Ok keywords.
Proof.
  intros Himg Hin. unfold get_keywords_row. rewrite Himg. simpl.
  now rewrite Hin.
Qed.

Lemma get_keywords_row_explicit keywords row img dominant secondary :
  getitem row "img" = Ok img -> contains keywords img = false ->
  getitem row "secondary" = Ok secondary -> secondary <> EmptyString ->
  getitem row "dominant" = Ok dominant ->
  get_keywords_row keywords row =
  Ok (keywords ++ [(img, [dominant; secondary])]).
Proof.
  intros Himg Hin Hsec Hs Hdom. unfold get_keywords_row.
  rewrite Himg. simpl. rewrite Hin, Hsec. simpl.
  apply truthy_true_iff in Hs. rewrite Hs, Hdom. simpl.
  now rewrite setitem_absent.
Qed.

Lemma get_keywords_row_implicit keywords row img :
  keyword_index keywords ->
  getitem row "img" = Ok img -> contains keywords img = false ->
  getitem row "secondary" = Ok EmptyString ->
  get_keywords_row keywords row =
  Ok match find (fun kv => word_in img (snd kv)) keywords with
     | Some kv => keywords ++ [(img, snd kv)]
     | None => keywords
     end.
Proof.
  intros Hk Himg Hin Hsec. unfold get_keywords_row.
  rewrite Himg. simpl. rewrite Hin, Hsec. simpl.
  rewrite (find_same_find keywords [] keywords img Hk eq_refl). simpl.
  destruct (find _ keywords) as [[k entry] |] eqn:E; [| reflexivity].
  apply find_some in E as [E _]. destruct Hk as [_ Hf].
  rewrite Forall_forall in Hf. destruct (Hf _ E) as [d [s [He _]]].
  simpl in He. subst entry. simpl. now rewrite setitem_absent.
Qed.

(** A row leaves the index as it is or adds one entry at its end, under
    the row's own stimulus; the entry has two words, the second one not
    empty. *)
Lemma get_keywords_row_grows keywords row keywords' :
  keyword_index keywords ->
  get_keywords_row keywords row = Ok keywords' ->
  keywords' = keywords \/
  exists img entry,
    getitem row "img" = Ok img /\ contains keywords img = false /\
    two_keywords entry /\ keywords' = keywords ++ [(img, entry)].
Proof.
  intros Hk H. unfold get_keywords_row in H.
  apply bind_Ok_inv in H as [img [Himg H]].
  destruct (contains keywords img) eqn:Hin; simpl in H.
  { left. now injection H. }
  apply bind_Ok_inv in H as [secondary [Hsec H]].
  destruct (truthy secondary) eqn:Hs.
  - apply bind_Ok_inv in H as [dominant [Hdom H]]. injection H as <-.
    right. exists img, [dominant; secondary]. repeat split; trivial.
    + exists dominant, secondary. split; [reflexivity |].
      now apply truthy_true_iff.
    + now apply setitem_absent.
  - destruct secondary; [| discriminate Hs].
    assert (Hrow := get_keywords_row_implicit keywords row img
                      Hk Himg Hin Hsec).
    unfold get_keywords_row in Hrow. rewrite Himg in Hrow. simpl in Hrow.
    rewrite Hin, Hsec in Hrow. simpl in Hrow. rewrite Hrow in H.
    injection H as <-.
    destruct (find _ keywords) as [[k entry] |] eqn:E; [| now left].
    right. exists img, entry. repeat split; trivial.
    apply find_some in E as [E _]. destruct Hk as [_ Hf].
    rewrite Forall_forall in Hf. exact (Hf _ E).
Qed.

(** ** The loop of [get_keywords] *)

Lemma get_keywords_rows_app keywords (done todo : list (dict string)) :
  get_keywords_rows keywords (done ++ todo) =
  (keywords' <- get_keywords_rows keywords done ;;
   get_keywords_rows keywords' todo).
Proof.
  revert keywords. induction done as [| row done IH]; intros keywords; simpl.
  - reflexivity.
  - destruct (get_keywords_row keywords row) as [keywords' | e]; simpl.
    + apply IH.
    + reflexivity.
Qed.

Lemma get_keywords_row_index keywords row keywords' :
  keyword_index keywords ->
  get_keywords_row keywords row = Ok keywords' ->
  keyword_index keywords'.
Proof.
  intros Hk H.
  destruct (get_keywords_row_grows _ _ _ Hk H)
    as [-> | [img [entry [_ [Hin [He ->]]]]]]; [exact Hk |].
  destruct He as [dominant [secondary [-> Hs]]].
  now apply keyword_index_snoc.
Qed.

Lemma get_keywords_rows_index keywords csv_reader keywords' :
  keyword_index keywords ->
  get_keywords_rows keywords csv_reader = Ok keywords' ->
  keyword_index keywords'.
Proof.
  revert keywords. induction csv_reader as [| row csv_reader IH];
    intros keywords Hk H; simpl in H.
  - now injection H as <-.
  - apply bind_Ok_inv in H as [keywords1 [Hrow H]].
    apply (IH keywords1); [| exact H].
    exact (get_keywords_row_index _ _ _ Hk Hrow).
Qed.

(** The loop only ever adds entries at the end of the index. *)
Lemma get_keywords_rows_grows keywords csv_reader keywords' :
  keyword_index keywords ->
  get_keywords_rows keywords csv_reader = Ok keywords' ->
  exists added, keywords' = keywords ++ added.
Proof.
  revert keywords. induction csv_reader as [| row csv_reader IH];
    intros keywords Hk H; simpl in H.
  - injection H as <-. exists []. now rewrite app_nil_r.
  - apply bind_Ok_inv in H as [keywords1 [Hrow H]].
    destruct (IH keywords1 (get_keywords_row_index _ _ _ Hk Hrow) H)
      as [added ->].
    destruct (get_keywords_row_grows _ _ _ Hk Hrow)
      as [-> | [img [entry [_ [_ [_ ->]]]]]].
    + now exists added.
    + exists ((img, entry) :: added). now rewrite <- app_assoc.
Qed.

(** First occurrence wins: an entry is never replaced. *)
Lemma get_keywords_rows_keeps keywords csv_reader keywords' img entry :
  keyword_index keywords ->
  get_keywords_rows keywords csv_reader = Ok keywords' ->
  getitem keywords img = Ok entry -> getitem keywords' img = Ok entry.
Proof.
  intros Hk H Hg. destruct (get_keywords_rows_grows _ _ _ Hk H) as [added ->].
  now apply getitem_app_l.
Qed.

(** A stimulus that no row names does not enter the index. *)
Lemma get_keywords_rows_absent keywords csv_reader keywords' img :
  keyword_index keywords ->
  get_keywords_rows keywords csv_reader = Ok keywords' ->
  contains keywords img = false ->
  Forall (fun row => getitem row "img" <> Ok img) csv_reader ->
  contains keywords' img = false.
Proof.
  revert keywords. induction csv_reader as [| row csv_reader IH];
    intros keywords Hk H Hin Hrows; simpl in H.
  - now injection H as <-.
  - apply bind_Ok_inv in H as [keywords1 [Hrow H]].
    inversion Hrows as [| ? ? Hne Hrest]; subst.
    apply (IH keywords1); trivial.
    + exact (get_keywords_row_index _ _ _ Hk Hrow).
    + destruct (get_keywords_row_grows _ _ _ Hk Hrow)
        as [-> | [img' [entry [Himg' [_ [_ ->]]]]]]; [exact Hin |].
      rewrite contains_app, Hin. simpl. rewrite orb_false_r.
      apply String.eqb_neq. intros ->. now apply Hne.
Qed.

(** What the loop has processed and what is left. *)
Lemma get_keywords_split index_csv before row after keywords :
  rows index_csv = before ++ row :: after ->
  get_keywords_rows [] before = Ok keywords ->
  get_keywords index_csv =
  (keywords' <- get_keywords_row keywords row ;;
   get_keywords_rows keywords' after).
Proof.
  intros Hrows Hbefore. unfold get_keywords.
  now rewrite Hrows, get_keywords_rows_app, Hbefore.
Qed.

Lemma get_keywords_after_row index_csv before row after keywords keywords'
    index img entry :
  rows index_csv = before ++ row :: after ->
  get_keywords_rows [] before = Ok keywords ->
  get_keywords_row keywords row = Ok keywords' ->
  get_keywords index_csv = Ok index ->
  getitem keywords' img = Ok entry -> getitem index img = Ok entry.
Proof.
  intros Hrows Hbefore Hrow Hindex Hg.
  rewrite (get_keywords_split _ _ _ _ _ Hrows Hbefore), Hrow in Hindex.
  simpl in Hindex.
  assert (Hk := get_keywords_rows_index _ _ _ keyword_index_nil Hbefore).
  apply (get_keywords_rows_keeps keywords' after index); trivial.
  exact (get_keywords_row_index _ _ _ Hk Hrow).
Qed.

Lemma getitem_snoc_new {V : Type} (d : dict V) k v :
  contains d k = false -> getitem (d ++ [(k, v)]) k = Ok v.
Proof.
  intros H. rewrite getitem_app_r by exact H. simpl.
  now rewrite String.eqb_refl.
Qed.

(** ** The claims about [get_keywords] *)

(** C3.  [get_keywords] goes through the rows in table order; a row
    whose stimulus is already a key of the index is skipped, so the
    first entry of a stimulus stays; a row whose stimulus is not yet
    indexed and whose secondary field is not empty stores the pair
    (dominant, secondary) of that very row. *)
Theorem get_keywords_first_explicit_row :
  forall index_csv before row after keywords img,
    rows index_csv = before ++ row :: after ->
    get_keywords_rows [] before = Ok keywords ->
    getitem row "img" = Ok img ->
    get_keywords index_csv =
      (keywords' <- get_keywords_row keywords row ;;
       get_keywords_rows keywords' after) /\
    (contains keywords img = true ->
     get_keywords_row keywords row = Ok keywords /\
     forall index,
       get_keywords index_csv = Ok index ->
       getitem index img = getitem keywords img) /\
    (forall dominant secondary,
        contains keywords img = false ->
        getitem row "secondary" = Ok secondary -> secondary <> EmptyString ->
        getitem row "dominant" = Ok dominant ->
        get_keywords_row keywords row =
          Ok (keywords ++ [(img, [dominant; secondary])]) /\
        forall index,
          get_keywords index_csv = Ok index ->
          getitem index img = Ok [dominant; secondary]).
Proof.
  intros index_csv before row after keywords img Hrows Hbefore Himg.
  split; [exact (get_keywords_split _ _ _ _ _ Hrows Hbefore) |].
  split.
  - intros Hin.
    assert (Hrow := get_keywords_row_indexed _ _ _ Himg Hin).
    split; [exact Hrow |]. intros index Hindex.
    destruct (getitem_present _ _ Hin) as [entry Hentry]. rewrite Hentry.
    exact (get_keywords_after_row _ _ _ _ _ _ _ _ _
             Hrows Hbefore Hrow Hindex Hentry).
  - intros dominant secondary Hin Hsec Hs Hdom.
    assert (Hrow := get_keywords_row_explicit _ _ _ _ _
                      Himg Hin Hsec Hs Hdom).
    split; [exact Hrow |]. intros index Hindex.
    apply (get_keywords_after_row _ _ _ _ _ _ _ _ _
             Hrows Hbefore Hrow Hindex).
    now apply getitem_snoc_new.
Qed.


(** A table of explicit rows is indexed row by row, each new stimulus
    with the words of its own row. *)
Lemma get_keywords_row_of_explicit keywords row :
  explicit_row row ->
  exists img dominant secondary,
    getitem row "img" = Ok img /\
    getitem row "dominant" = Ok dominant /\
    getitem row "secondary" = Ok secondary /\
    get_keywords_row keywords row =
    Ok (if contains keywords img then keywords
        else keywords ++ [(img, [dominant; secondary])]).
Proof.
  intros [img [dominant [secondary [Himg [Hdom [_ [Hsec Hs]]]]]]].
  exists img, dominant, secondary. repeat split; trivial.
  destruct (contains keywords img) eqn:Hin.
  - now apply get_keywords_row_indexed with img.
  - now apply get_keywords_row_explicit.
Qed.

Lemma get_keywords_rows_of_explicit keywords csv_reader :
  Forall explicit_row csv_reader ->
  exists keywords',
    get_keywords_rows keywords csv_reader = Ok keywords' /\
    (forall img,
        contains keywords' img = true <->
        contains keywords img = true \/
        exists row, In row csv_reader /\ getitem row "img" = Ok img) /\
    (forall img entry,
        In (img, entry) keywords' ->
        In (img, entry) keywords \/
        exists row dominant secondary,
          In row csv_reader /\ getitem row "img" = Ok img /\
          getitem row "dominant" = Ok dominant /\
          getitem row "secondary" = Ok secondary /\
          entry = [dominant; secondary]).
Proof.
  intros Hrows. revert keywords.
  induction Hrows as [| row csv_reader Hrow _ IH]; intros keywords.
  - exists keywords. split; [reflexivity |]. split.
    + intros img. split; [tauto |]. intros [H | [row [[] _]]]. exact H.
    + intros img entry H. now left.
  - destruct (get_keywords_row_of_explicit keywords row Hrow)
      as [img0 [dominant [secondary [Himg [Hdom [Hsec Hstep]]]]]].
    simpl. rewrite Hstep. simpl.
    destruct (IH (if contains keywords img0 then keywords
                  else keywords ++ [(img0, [dominant; secondary])]))
      as [keywords' [Hrun [Hkeys Hentries]]].
    exists keywords'. split; [exact Hrun |]. split.
    + intros img. rewrite Hkeys. split.
      * intros [H | [r [Hr Hi]]].
        -- destruct (contains keywords img0) eqn:Hin; [now left |].
           rewrite contains_app in H. apply orb_true_iff in H as [H | H];
             [now left |].
           right. exists row. split; [now left |].
           simpl in H. rewrite orb_false_r in H.
           apply String.eqb_eq in H. now subst.
        -- right. exists r. split; [now right | exact Hi].
      * intros [H | [r [[<- | Hr] Hi]]].
        -- left. destruct (contains keywords img0); [exact H |].
           rewrite contains_app, H. reflexivity.
        -- left. rewrite Himg in Hi. injection Hi as ->.
           destruct (contains keywords img) eqn:Hin; [exact Hin |].
           rewrite contains_app. simpl. rewrite String.eqb_refl.
           now rewrite orb_true_r.
        -- right. now exists r.
    + intros img entry H. destruct (Hentries img entry H) as [Hold | Hnew].
      * destruct (contains keywords img0); [now left |].
        apply in_app_or in Hold as [Hold | [Heq | []]]; [now left |].
        injection Heq as <- <-. right.
        exists row, dominant, secondary. repeat split; trivial. now left.
      * destruct Hnew as [r [d [s [Hr H']]]]. right.
        exists r, d, s. split; [now right | exact H'].
Qed.

(** C6.  When every row gives its own dominant and secondary words, the
    index has an entry for exactly the stimuli of the table, the entry
    of a stimulus is the pair of the first row that names it, and every
    entry is the pair of a row with that very stimulus: nothing is
    inherited from another row. *)
Theorem get_keywords_all_explicit :
  forall index_csv,
    Forall explicit_row (rows index_csv) ->
    exists index,
      get_keywords index_csv = Ok index /\
      (forall img,
          contains index img = true <->
          exists row, In row (rows index_csv) /\ getitem row "img" = Ok img) /\
      (forall before row after img dominant secondary,
          rows index_csv = before ++ row :: after ->
          Forall (fun r => getitem r "img" <> Ok img) before ->
          getitem row "img" = Ok img ->
          getitem row "dominant" = Ok dominant ->
          getitem row "secondary" = Ok secondary ->
          getitem index img = Ok [dominant; secondary]) /\
      (forall img entry,
          In (img, entry) index ->
          exists row dominant secondary,
            In row (rows index_csv) /\ getitem row "img" = Ok img /\
            getitem row "dominant" = Ok dominant /\
            getitem row "secondary" = Ok secondary /\
            entry = [dominant; secondary]).
Proof.
  intros index_csv Hall.
  destruct (get_keywords_rows_of_explicit [] _ Hall)
    as [index [Hindex [Hkeys Hentries]]].
  exists index. split; [exact Hindex |]. split; [| split].
  - intros img. rewrite Hkeys. split.
    + intros [H | H]; [discriminate H | exact H].
    + intros H. now right.
  - intros before row after img dominant secondary
           Hrows Hbefore Himg Hdom Hsec.
    rewrite Hrows in Hall. apply Forall_app in Hall as [Hall_before Hall'].
    inversion Hall' as [| ? ? Hrow _]; subst.
    destruct (get_keywords_rows_of_explicit [] _ Hall_before)
      as [keywords [Hrun _]].
    assert (Hk := get_keywords_rows_index _ _ _ keyword_index_nil Hrun).
    assert (Hin : contains keywords img = false).
    { now apply (get_keywords_rows_absent [] before keywords img
                   keyword_index_nil Hrun). }
    destruct Hrow as [img' [d [s [Himg' [Hd [_ [Hs Hne]]]]]]].
    rewrite Hsec in Hs. injection Hs as <-.
    assert (Hstep := get_keywords_row_explicit _ _ _ _ _
                       Himg Hin Hsec Hne Hdom).
    apply (get_keywords_after_row _ _ _ _ _ _ _ _ _
             Hrows Hrun Hstep Hindex).
    now apply getitem_snoc_new.
  - intros img entry H. destruct (Hentries img entry H) as [[] | H'].
    exact H'.
Qed.

(** ** The wolf table *)

Lemma get_keywords_wolf_table (img : string) :
  img <> "A" ->
  get_keywords (wolf_table img) =
  Ok (if str_in "wolf" img || str_in "wolves" img
      then [("A", ["wolf"; "wolves"]); (img, ["wolf"; "wolves"])]
      else [("A", ["wolf"; "wolves"])]).
Proof.
  intros Hne. unfold get_keywords, wolf_table, rows. simpl get_keywords_rows.
  assert (Hin : contains [("A", ["wolf"; "wolves"])] img = false).
  { rewrite contains_one. apply String.eqb_neq. congruence. }
  rewrite (get_keywords_row_implicit _ _ img); trivial.
  - simpl bind. unfold find, word_in, snd, existsb.
    rewrite orb_false_r.
    destruct (str_in "wolf" img || str_in "wolves" img); reflexivity.
  - split.
    + repeat constructor. simpl. tauto.
    + repeat constructor. exists "wolf", "wolves". split; [reflexivity |].
      discriminate.
Qed.

(** C7, as the code has it.  In the table with the explicit row
    [img=A, dominant=wolf, secondary=wolves] followed by a row without
    words for another stimulus, that stimulus is mapped to
    (wolf, wolves) exactly when wolf or wolves occurs in its name, as a
    run of characters; otherwise it has no entry.  The name [A] of the
    first stimulus plays no part. *)
Theorem wolf_table_inherits_iff :
  forall img,
    img <> "A" ->
    exists index,
      get_keywords (wolf_table img) = Ok index /\
      (getitem index img = Ok ["wolf"; "wolves"] <->
       is_substring "wolf" img \/ is_substring "wolves" img) /\
      (~ (is_substring "wolf" img \/ is_substring "wolves" img) ->
       getitem index img = Raise (KeyError img)).
Proof.
  intros img Hne. rewrite (get_keywords_wolf_table img Hne).
  assert (Hin : contains [("A", ["wolf"; "wolves"])] img = false).
  { rewrite contains_one. apply String.eqb_neq. congruence. }
  assert (Hor : str_in "wolf" img || str_in "wolves" img = true <->
                is_substring "wolf" img \/ is_substring "wolves" img).
  { now rewrite orb_true_iff, !str_in_true_iff. }
  destruct (str_in "wolf" img || str_in "wolves" img);
    eexists; (split; [reflexivity |]); split.
  - split; [intros _; now apply Hor |]. intros _.
    apply (getitem_snoc_new [("A", ["wolf"; "wolves"])]). exact Hin.
  - intros H. elim H. now apply Hor.
  - rewrite (getitem_absent _ _ Hin). split; [discriminate |].
    intros H. apply Hor in H. discriminate H.
  - intros _. exact (getitem_absent _ _ Hin).
Qed.

Lemma wolf_table_inherits_iff_witness :
  "wolf_trial2" <> "A" /\
  exists index,
    get_keywords (wolf_table "wolf_trial2") = Ok index /\
    (getitem index "wolf_trial2" = Ok ["wolf"; "wolves"] <->
     is_substring "wolf" "wolf_trial2" \/
     is_substring "wolves" "wolf_trial2") /\
    (~ (is_substring "wolf" "wolf_trial2" \/
        is_substring "wolves" "wolf_trial2") ->
     getitem index "wolf_trial2" = Raise (KeyError "wolf_trial2")).
Proof.
  split; [discriminate |].
  apply (wolf_table_inherits_iff "wolf_trial2"). discriminate.
Defined.

(** C7, as the claim has it, fails: [A] occurs in [A_trial2] and the
    scan reaches the entry of [A], the only one, yet [A_trial2] gets no
    entry, since neither wolf nor wolves occurs in [A_trial2]. *)
Lemma A_trial2_counterexample :
  get_keywords (wolf_table "A_trial2") = Ok [("A", ["wolf"; "wolves"])] /\
  ~ (getitem [("A", ["wolf"; "wolves"])] "A_trial2" = Ok ["wolf"; "wolves"] <->
     is_substring "A" "A_trial2" /\
     scan_reaches [("A", ["wolf"; "wolves"])] "A_trial2" "A").
Proof.
  split; [reflexivity |]. intros [_ H].
  assert (Hget : getitem [("A", ["wolf"; "wolves"])] "A_trial2" =
                 Ok ["wolf"; "wolves"]).
  { apply H. split.
    - exists EmptyString, "_trial2". reflexivity.
    - exists [], ["wolf"; "wolves"], []. split; [reflexivity | constructor]. }
  discriminate Hget.
Qed.

(** ** A table without the word columns *)

(** C8, as the claim has it, fails on the table with the columns [img]
    and [audio_path] and one row. *)
Lemma bare_table_counterexample :
  ~ (forall index_csv,
        rows_follow_header index_csv ->
        has_column index_csv "img" ->
        has_column index_csv "audio_path" ->
        ~ has_column index_csv "dominant" ->
        ~ has_column index_csv "secondary" ->
        exists index, get_keywords index_csv = Ok index).
Proof.
  intros H. destruct (H bare_table) as [index Hindex].
  - repeat constructor.
  - now left.
  - right. now left.
  - intros [E | [E | []]]; discriminate E.
  - intros [E | [E | []]]; discriminate E.
  - discriminate Hindex.
Qed.

(** ** Concrete runs of [get_keywords] *)

Lemma get_keywords_first_explicit_row_witness :
  (rows cat_table = [] ++ row_cat :: [] /\
   get_keywords_rows [] [] = Ok [] /\
   getitem row_cat "img" = Ok "cat.jpg") /\
  forall index,
    get_keywords cat_table = Ok index ->
    getitem index "cat.jpg" = Ok ["cat"; "kitten"].
Proof.
  split; [repeat split |].
  apply (proj2 (proj2 (get_keywords_first_explicit_row
                         cat_table [] row_cat [] [] "cat.jpg"
                         eq_refl eq_refl eq_refl)) "cat" "kitten");
    try reflexivity.
  discriminate.
Defined.


Lemma get_keywords_all_explicit_witness :
  Forall explicit_row (rows cat_table) /\
  exists index,
    get_keywords cat_table = Ok index /\
    getitem index "cat.jpg" = Ok ["cat"; "kitten"].
Proof.
  assert (Hall : Forall explicit_row (rows cat_table)).
  { repeat constructor. exists "cat.jpg", "cat", "kitten".
    repeat split; try reflexivity; discriminate. }
  split; [exact Hall |].
  destruct (get_keywords_all_explicit cat_table Hall)
    as [index [Hindex [_ [Hfirst _]]]].
  exists index. split; [exact Hindex |].
  apply (Hfirst [] row_cat [] "cat.jpg" "cat" "kitten");
    try reflexivity.
  constructor.
Defined.

(** ** Paths *)

Lemma last_items_short {A : Type} (l : list A) :
  length l < 3 -> unpack3 (last_items 3 l) = Raise ValueError.
Proof.
  intros H. unfold last_items.
  replace (length l - 3) with 0 by lia. simpl.
  destruct l as [| a [| b [| c l]]]; try reflexivity.
  simpl in H. lia.
Qed.

Lemma last_items_three {A : Type} (l : list A) :
  3 <= length l -> exists a b c, unpack3 (last_items 3 l) = Ok (a, b, c).
Proof.
  intros H. unfold last_items.
  assert (Hlen : length (skipn (length l - 3) l) = 3).
  { rewrite length_skipn. lia. }
  destruct (skipn (length l - 3) l) as [| a [| b [| c [| d l']]]];
    try discriminate Hlen.
  now exists a, b, c.
Qed.

(** A string has one segment more than it has separators. *)
Lemma split_length (sep : ascii) (s : string) :
  length (split sep s) =
  S (length (filter (Ascii.eqb sep) (list_ascii_of_string s))).
Proof.
  induction s as [| c s IH]; simpl; [reflexivity |].
  rewrite (Ascii.eqb_sym sep c). destruct (Ascii.eqb c sep); simpl.
  - now rewrite IH.
  - destruct (split sep s); simpl in *; [discriminate IH | exact IH].
Qed.

(** ** The transcriber and the driver *)

Section ServiceProperties.

Variable world : Type.
Variable recognize :
  world -> string -> list string ->
  world * result (list SpeechRecognitionResult).

(** A first key that comes with an empty list of spots makes the
    indexing [[0]] raise.  The condition of [transcribe] takes a
    non-empty mapping to mean that a keyword was spotted. *)
Remark transcribe_results_no_hit :
  forall key others alts fin rest,
    transcribe_results
      ({| keywords_result := Some ((key, []) :: others);
          alternatives := alts;
          final := fin |} :: rest) = Raise IndexError.
Proof.
  intros key others alts fin rest. unfold transcribe_results. simpl.
  now rewrite String.eqb_refl.
Qed.

Lemma main_rows_app keywords st (done todo : list (dict string)) :
  main_rows recognize keywords st (done ++ todo) =
  match main_rows recognize keywords st done with
  | (st', Ok _) => main_rows recognize keywords st' todo
  | (st', Raise e) => (st', Raise e)
  end.
Proof.
  revert st. induction done as [| row done IH]; intros st; simpl.
  - reflexivity.
  - destruct (main_row recognize keywords st row) as [st1 [[] | e]].
    + apply IH.
    + reflexivity.
Qed.

(** C9.  A row whose audio path has fewer than three segments between
    slashes makes the unpacking into three names raise; nothing handles
    the error, so the loop ends there: the rows after it are neither
    transcribed nor written. *)
Theorem short_audio_path_stops_batch :
  forall index_csv keywords st before row after st' path,
    rows index_csv = before ++ row :: after ->
    get_keywords index_csv = Ok keywords ->
    main_rows recognize keywords
      (writerow st (map PyStr (fieldnames index_csv ++ kws_columns)))
      before = (st', Ok tt) ->
    getitem row "audio_path" = Ok path ->
    length (split "/" path) < 3 ->
    main_row recognize keywords st' row = (st', Raise ValueError) /\
    main recognize index_csv st = (st', Raise ValueError).
Proof.
  intros index_csv keywords st before row after st' path
         Hrows Hindex Hbefore Hpath Hshort.
  assert (Hrow : main_row recognize keywords st' row =
                 (st', Raise ValueError)).
  { unfold main_row. rewrite Hpath. simpl.
    now rewrite (last_items_short _ Hshort). }
  split; [exact Hrow |].
  unfold main. rewrite Hindex, Hrows, main_rows_app, Hbefore. simpl.
  now rewrite Hrow.
Qed.


End ServiceProperties.

(** ** Concrete runs of the transcriber and the driver *)

(** The end-to-end scenario: the table with the one row
    [cat.jpg,/d/s1/x/cat.wav,cat,kitten] and a service that spots cat
    from 1.0 to 1.3 with confidence 0.9. *)
Example cat_table_run :
  main spotting_service cat_table start_state = (cat_final_state, Ok tt).
Proof. reflexivity. Qed.

Lemma short_audio_path_stops_batch_witness :
  (rows short_path_table = [row_cat] ++ row_dog :: [] /\
   get_keywords short_path_table =
     Ok [("cat.jpg", ["cat"; "kitten"]); ("dog.jpg", ["dog"; "puppy"])] /\
   main_rows spotting_service
     [("cat.jpg", ["cat"; "kitten"]); ("dog.jpg", ["dog"; "puppy"])]
     (writerow start_state
        (map PyStr (fieldnames short_path_table ++ kws_columns)))
     [row_cat] = (cat_final_state, Ok tt) /\
   getitem row_dog "audio_path" = Ok "x/dog.wav" /\
   length (split "/" "x/dog.wav") < 3) /\
  main spotting_service short_path_table start_state =
    (cat_final_state, Raise ValueError).
Proof.
  split; [repeat split; simpl; lia |].
  apply (short_audio_path_stops_batch nat spotting_service short_path_table
           [("cat.jpg", ["cat"; "kitten"]); ("dog.jpg", ["dog"; "puppy"])]
           start_state [row_cat] row_dog [] cat_final_state "x/dog.wav");
    try reflexivity.
  simpl. lia.
Defined.



(** * Further properties of the code *)

(** ** Strings and paths *)

Lemma append_assoc (a b c : string) :
  ((a ++ b) ++ c)%string = (a ++ b ++ c)%string.
Proof. induction a as [| x a IH]; simpl; [reflexivity | now rewrite IH]. Qed.

Lemma append_length (a b : string) :
  String.length (a ++ b) = String.length a + String.length b.
Proof. induction a as [| x a IH]; simpl; [reflexivity | now rewrite IH]. Qed.

(** X1.  The test [w in s] of line 56 is the occurrence of [w] in [s] as a
    run of characters: it holds exactly when [s] is some text, then
    [w], then some text.  So the empty word occurs in every string,
    every string occurs in itself, and a word that occurs in a string
    is not longer than the string. *)
Theorem str_in_exact_substring :
  forall needle hay,
    (str_in needle hay = true <->
     exists before after, hay = (before ++ needle ++ after)%string) /\
    str_in EmptyString hay = true /\
    str_in hay hay = true /\
    (str_in needle hay = true -> String.length needle <= String.length hay).
Proof.
  intros needle hay. split; [apply str_in_true_iff |]. split; [| split].
  - apply str_in_true_iff. now exists EmptyString, hay.
  - apply str_in_true_iff. exists EmptyString, EmptyString. simpl.
    clear. induction hay as [| c hay IH]; simpl; [reflexivity |].
    now rewrite <- IH.
  - intros H. apply str_in_true_iff in H as [before [after ->]].
    rewrite !append_length. lia.
Qed.

Lemma str_in_exact_substring_witness :
  str_in "wolf" "werewolf_2" = true /\
  String.length "wolf" <= String.length "werewolf_2".
Proof.
  split; [reflexivity |].
  apply (proj2 (proj2 (proj2 (str_in_exact_substring "wolf" "werewolf_2")))).
  reflexivity.
Defined.

Lemma split_no_separator (sep : ascii) (s : string) :
  Forall (fun w => ~ In sep (list_ascii_of_string w)) (split sep s).
Proof.
  induction s as [| c s IH]; simpl.
  - constructor; [intros [] | constructor].
  - destruct (Ascii.eqb c sep) eqn:E.
    + constructor; [intros [] | exact IH].
    + destruct (split sep s) as [| w ws].
      * constructor; [| constructor]. simpl. intros [-> | []].
        now rewrite Ascii.eqb_refl in E.
      * inversion IH as [| ? ? Hw Hws]; subst. constructor; [| exact Hws].
        simpl. intros [-> | Hin]; [| now apply Hw].
        now rewrite Ascii.eqb_refl in E.
Qed.

(** X2.  [s.split('/')] as line 133 uses it: the string has one segment more
    than it has separators, so at least one; no segment contains the
    separator; and putting the separator back between the segments
    gives the string again. *)
Theorem split_segments :
  forall (sep : ascii) (s : string),
    length (split sep s) =
      S (length (filter (Ascii.eqb sep) (list_ascii_of_string s))) /\
    Forall (fun w => ~ In sep (list_ascii_of_string w)) (split sep s) /\
    String.concat (String sep EmptyString) (split sep s) = s.
Proof.
  intros sep s. split; [apply split_length |].
  split; [apply split_no_separator |].
  induction s as [| c s IH]; simpl; [reflexivity |].
  assert (Hlen := split_length sep s).
  destruct (Ascii.eqb c sep) eqn:E.
  - apply Ascii.eqb_eq in E. subst c.
    destruct (split sep s) as [| w ws]; [discriminate Hlen |].
    change (String sep (String.concat (String sep EmptyString) (w :: ws)) =
            String sep s).
    now rewrite IH.
  - destruct (split sep s) as [| w ws]; [discriminate Hlen |].
    destruct ws as [| x ws].
    + simpl in IH. simpl. now rewrite IH.
    + change (String c (String.concat (String sep EmptyString)
                          (w :: x :: ws)) = String c s).
      now rewrite IH.
Qed.

Lemma startswith_false_of_no_separator (c : ascii) (w : string) :
  ~ In c (list_ascii_of_string w) -> startswith w c = false.
Proof.
  destruct w as [| a w]; simpl; intros H; [reflexivity |].
  destruct (Ascii.eqb a c) eqn:E; [| reflexivity].
  apply Ascii.eqb_eq in E. elim H. now left.
Qed.

Lemma endswith_In (c : ascii) (w : string) :
  endswith w c = true -> In c (list_ascii_of_string w).
Proof.
  induction w as [| a w IH]; simpl; [discriminate |].
  destruct w as [| b w].
  - intros E. apply Ascii.eqb_eq in E. now left.
  - intros E. right. now apply IH.
Qed.

Lemma endswith_append (c : ascii) (s w : string) :
  w <> EmptyString -> endswith (s ++ w) c = endswith w c.
Proof.
  intros Hw. induction s as [| a s IH]; [reflexivity |].
  simpl append. simpl endswith. rewrite IH.
  destruct (s ++ w)%string eqn:E; [| reflexivity].
  destruct s; simpl in E; [now elim Hw | discriminate E].
Qed.

Lemma truthy_append (s w : string) :
  truthy s = true -> truthy (s ++ w) = true.
Proof. destruct s; [discriminate | reflexivity]. Qed.

Lemma join_keeps_base (base : string) (p : list string) :
  forall a,
    prefix base a = true ->
    Forall (fun b => startswith b "/" = false) p ->
    prefix base (join a p) = true.
Proof.
  induction p as [| b p IH]; intros a Ha Hp; simpl; [exact Ha |].
  inversion Hp as [| ? ? Hb Hrest]; subst. rewrite Hb.
  apply prefix_true_iff in Ha as [after ->].
  destruct (negb (truthy (base ++ after)) || endswith (base ++ after) "/");
    apply IH; trivial; apply prefix_true_iff.
  - exists (after ++ b)%string. apply append_assoc.
  - exists (after ++ "/" ++ b)%string. apply append_assoc.
Qed.

Lemma join_step (a b : string) (p : list string) :
  startswith b "/" = false ->
  negb (truthy a) || endswith a "/" = false ->
  join a (b :: p) = join (a ++ "/" ++ b) p.
Proof. intros Hb Ha. simpl. now rewrite Hb, Ha. Qed.

Lemma join_goes_on (s w : string) :
  w <> EmptyString -> ~ In "/"%char (list_ascii_of_string w) ->
  negb (truthy (s ++ "/" ++ w)) || endswith (s ++ "/" ++ w) "/" = false.
Proof.
  intros Hw Hn. rewrite <- append_assoc.
  rewrite endswith_append by exact Hw.
  destruct (endswith w "/") eqn:E; [elim Hn; now apply endswith_In |].
  rewrite orb_false_r.
  destruct (s ++ "/")%string eqn:Es; [| reflexivity].
  destruct s; discriminate Es.
Qed.

Lemma last_items_In {A : Type} (n : nat) (l : list A) (x : A) :
  In x (last_items n l) -> In x l.
Proof.
  unfold last_items. intros H.
  rewrite <- (firstn_skipn (length l - n) l). apply in_or_app. now right.
Qed.

(** X3.  The path that the driver opens (lines 133-134): the three names
    unpacked from the last segments of [audio_path] contain no slash,
    so [join] never starts over from one of them and the path stays
    under [data_path]; when the first two names are not empty the path
    is [data_path/path1/path2/path3]. *)
Theorem audio_path_under_data_path :
  forall path path1 path2 path3,
    unpack3 (last_items 3 (split "/" path)) = Ok (path1, path2, path3) ->
    prefix data_path (join data_path [path1; path2; path3]) = true /\
    (path1 <> EmptyString -> path2 <> EmptyString ->
     join data_path [path1; path2; path3] =
     (data_path ++ "/" ++ path1 ++ "/" ++ path2 ++ "/" ++ path3)%string).
Proof.
  intros path path1 path2 path3 H.
  assert (Hseg : Forall (fun w => ~ In "/"%char (list_ascii_of_string w))
                   [path1; path2; path3]).
  { destruct (last_items 3 (split "/" path))
      as [| a [| b [| c [| d l]]]] eqn:E; try discriminate H.
    injection H as <- <- <-. rewrite <- E.
    apply Forall_forall. intros w Hw. apply last_items_In in Hw.
    revert w Hw. apply Forall_forall, split_no_separator. }
  assert (Hstart : Forall (fun b => startswith b "/" = false)
                     [path1; path2; path3]).
  { eapply Forall_impl; [| exact Hseg].
    intros w. apply startswith_false_of_no_separator. }
  split.
  - apply join_keeps_base; [reflexivity | exact Hstart].
  - intros H1 H2.
    inversion Hseg as [| ? ? Hn1 Hseg']; subst.
    inversion Hseg' as [| ? ? Hn2 _]; subst.
    inversion Hstart as [| ? ? Hs1 Hstart']; subst.
    inversion Hstart' as [| ? ? Hs2 Hstart'']; subst.
    inversion Hstart'' as [| ? ? Hs3 _]; subst.
    rewrite (join_step data_path path1 _ Hs1 eq_refl).
    rewrite (join_step _ path2 _ Hs2 (join_goes_on _ _ H1 Hn1)).
    rewrite (join_step _ path3 _ Hs3 (join_goes_on _ _ H2 Hn2)).
    simpl join. now rewrite !append_assoc.
Qed.

Lemma audio_path_under_data_path_witness :
  unpack3 (last_items 3 (split "/" "/d/s1/x/cat.wav")) =
    Ok ("s1", "x", "cat.wav") /\
  join data_path ["s1"; "x"; "cat.wav"] =
    "/home/sichao/Documents/wc/Data/s1/x/cat.wav".
Proof.
  split; [reflexivity |].
  apply (proj2 (audio_path_under_data_path "/d/s1/x/cat.wav"
                  "s1" "x" "cat.wav" eq_refl)); discriminate.
Defined.

(** ** Dictionaries: storing and looking up *)

Lemma keys_setitem {V : Type} (d : dict V) (k : string) (v : V) :
  keys (setitem d k v) = if contains d k then keys d else keys d ++ [k].
Proof.
  unfold contains, keys. induction d as [| [k0 v0] d IH]; simpl.
  - reflexivity.
  - destruct (String.eqb k0 k); simpl; [reflexivity |].
    rewrite IH. now destruct (existsb _ d).
Qed.

(** X4.  [d[k] = v] followed by [d[k']]: the stored value for [k' = k], the
    value that was there before for any other key.  Storing keeps the
    keys distinct and in their order; a new key goes last. *)
Theorem setitem_then_getitem :
  forall (V : Type) (d : dict V) (k : string) (v : V) (k' : string),
    getitem (setitem d k v) k' =
      (if String.eqb k k' then Ok v else getitem d k') /\
    keys (setitem d k v) = (if contains d k then keys d else keys d ++ [k]) /\
    (unique_keys d -> unique_keys (setitem d k v)).
Proof.
  intros V d k v k'. split; [| split; [apply keys_setitem |]].
  - induction d as [| [k0 v0] d IH]; simpl.
    + reflexivity.
    + destruct (String.eqb k0 k) eqn:E0; simpl.
      * apply String.eqb_eq in E0. subst k0.
        now destruct (String.eqb k k').
      * destruct (String.eqb k0 k') eqn:E1; [| exact IH].
        apply String.eqb_eq in E1. subst k'.
        rewrite String.eqb_sym in E0. now rewrite E0.
  - unfold unique_keys. rewrite keys_setitem.
    destruct (contains d k) eqn:E; [trivial |]. intros Hd.
    change (unique_keys (d ++ [(k, v)])) with (NoDup (keys (d ++ [(k, v)])))
      in *.
    assert (H := unique_keys_snoc d k v Hd E). unfold unique_keys, keys in H.
    rewrite map_app in H. exact H.
Qed.

Lemma setitem_then_getitem_witness :
  unique_keys [("A", ["wolf"; "wolves"])] /\
  unique_keys (setitem [("A", ["wolf"; "wolves"])] "B" ["cat"; "kitten"]).
Proof.
  assert (H : unique_keys [("A", ["wolf"; "wolves"])]).
  { repeat constructor. intros []. }
  split; [exact H |].
  apply (proj2 (proj2 (setitem_then_getitem _ [("A", ["wolf"; "wolves"])]
                         "B" ["cat"; "kitten"] "B"))).
  exact H.
Defined.

(** ** More about [get_keywords] *)

(** What one row adds to the index, and where the words come from:
    from the row itself, or from an entry that is already stored and
    has a word in the stimulus name of the row. *)
Lemma get_keywords_row_source keywords row keywords' :
  keyword_index keywords ->
  get_keywords_row keywords row = Ok keywords' ->
  keywords' = keywords \/
  exists img entry,
    keywords' = keywords ++ [(img, entry)] /\
    getitem row "img" = Ok img /\
    ((exists dominant secondary,
         getitem row "dominant" = Ok dominant /\
         getitem row "secondary" = Ok secondary /\
         secondary <> EmptyString /\ entry = [dominant; secondary]) \/
     (exists source, In (source, entry) keywords /\ word_in img entry = true)).
Proof.
  intros Hk H. unfold get_keywords_row in H.
  apply bind_Ok_inv in H as [img [Himg H]].
  destruct (contains keywords img) eqn:Hin; simpl in H.
  { left. now injection H. }
  apply bind_Ok_inv in H as [secondary [Hsec H]].
  destruct (truthy secondary) eqn:Hs.
  - apply bind_Ok_inv in H as [dominant [Hdom H]]. injection H as <-.
    right. exists img, [dominant; secondary].
    split; [now apply setitem_absent |]. split; [exact Himg |]. left.
    exists dominant, secondary. repeat split; trivial.
    now apply truthy_true_iff.
  - destruct secondary; [| discriminate Hs].
    assert (Hrow := get_keywords_row_implicit keywords row img
                      Hk Himg Hin Hsec).
    unfold get_keywords_row in Hrow. rewrite Himg in Hrow. simpl in Hrow.
    rewrite Hin, Hsec in Hrow. simpl in Hrow. rewrite Hrow in H.
    injection H as <-.
    destruct (find _ keywords) as [[source entry] |] eqn:E; [| now left].
    right. exists img, entry. split; [reflexivity |].
    split; [exact Himg |]. right. exists source.
    apply find_some in E as [Hin' Hw]. now split.
Qed.

Lemma from_explicit_row_more csv_reader csv_reader' img entry :
  (forall row, In row csv_reader -> In row csv_reader') ->
  from_explicit_row csv_reader img entry ->
  from_explicit_row csv_reader' img entry.
Proof.
  intros Hsub [row [d [s [Hrow H]]]]. exists row, d, s.
  split; [now apply Hsub | exact H].
Qed.

Lemma get_keywords_rows_sources (all : list (dict string)) csv_reader :
  forall keywords keywords',
    (forall row, In row csv_reader -> In row all) ->
    keyword_index keywords ->
    Forall (fun kv => from_explicit_row all (fst kv) (snd kv)) keywords ->
    get_keywords_rows keywords csv_reader = Ok keywords' ->
    Forall (fun kv => from_explicit_row all (fst kv) (snd kv)) keywords'.
Proof.
  induction csv_reader as [| row csv_reader IH];
    intros keywords keywords' Hsub Hk Hsrc H; simpl in H.
  - now injection H as <-.
  - apply bind_Ok_inv in H as [keywords1 [Hrow H]].
    apply (IH keywords1 keywords'); trivial.
    + intros r Hr. apply Hsub. now right.
    + exact (get_keywords_row_index _ _ _ Hk Hrow).
    + destruct (get_keywords_row_source _ _ _ Hk Hrow)
        as [-> | [img [entry [-> [Himg Hfrom]]]]]; [exact Hsrc |].
      apply Forall_app. split; [exact Hsrc |].
      constructor; [| constructor]. simpl.
      destruct Hfrom as [[d [s [Hd [Hs [Hne ->]]]]] | [source [Hin Hw]]].
      * exists row, d, s. repeat split; trivial.
        -- apply Hsub. now left.
        -- now left.
      * rewrite Forall_forall in Hsrc.
        assert (Hold := Hsrc _ Hin). simpl in Hold.
        destruct Hold as [r [d [s [Hr [Hd [Hs [Hne [-> _]]]]]]]].
        exists r, d, s. repeat split; trivial. right.
        apply word_in_true_iff in Hw as [w [[<- | [<- | []]] Hw]];
          [now left | now right].
Qed.

(** X6.  Every entry of the returned index holds the dominant and the
    secondary word of one row of the table whose secondary field is not
    empty; that row names the stimulus of the entry, or one of its two
    words occurs in the name of that stimulus.  No word is made up and
    the words of two rows are never mixed. *)
Theorem get_keywords_entries_from_explicit_rows :
  forall index_csv index img entry,
    get_keywords index_csv = Ok index ->
    In (img, entry) index ->
    from_explicit_row (rows index_csv) img entry.
Proof.
  intros index_csv index img entry Hindex Hin.
  assert (H := get_keywords_rows_sources (rows index_csv) (rows index_csv)
                 [] index (fun _ h => h) keyword_index_nil
                 (Forall_nil _) Hindex).
  rewrite Forall_forall in H. exact (H _ Hin).
Qed.

Lemma get_keywords_entries_from_explicit_rows_witness :
  (get_keywords (wolf_table "wolf_trial2") =
     Ok [("A", ["wolf"; "wolves"]); ("wolf_trial2", ["wolf"; "wolves"])] /\
   In ("wolf_trial2", ["wolf"; "wolves"])
     [("A", ["wolf"; "wolves"]); ("wolf_trial2", ["wolf"; "wolves"])]) /\
  from_explicit_row (rows (wolf_table "wolf_trial2"))
    "wolf_trial2" ["wolf"; "wolves"].
Proof.
  assert (Hin : In ("wolf_trial2", ["wolf"; "wolves"])
                  [("A", ["wolf"; "wolves"]);
                   ("wolf_trial2", ["wolf"; "wolves"])]).
  { right. now left. }
  split; [split; [reflexivity | exact Hin] |].
  apply (get_keywords_entries_from_explicit_rows (wolf_table "wolf_trial2")
           _ "wolf_trial2" ["wolf"; "wolves"] eq_refl Hin).
Defined.

Lemma get_keywords_rows_keys csv_reader :
  forall keywords keywords',
    keyword_index keywords ->
    get_keywords_rows keywords csv_reader = Ok keywords' ->
    (forall img,
        contains keywords' img = true ->
        contains keywords img = true \/
        exists row, In row csv_reader /\ getitem row "img" = Ok img) /\
    length keywords' <= length keywords + length csv_reader.
Proof.
  induction csv_reader as [| row csv_reader IH];
    intros keywords keywords' Hk H; simpl in H.
  - injection H as <-. split; [now left | lia].
  - apply bind_Ok_inv in H as [keywords1 [Hrow H]].
    destruct (IH _ _ (get_keywords_row_index _ _ _ Hk Hrow) H)
      as [Hkeys Hlen].
    destruct (get_keywords_row_grows _ _ _ Hk Hrow)
      as [-> | [img0 [entry [Himg [_ [_ ->]]]]]].
    + split; [| simpl; lia]. intros img Hin.
      destruct (Hkeys img Hin) as [Hold | [r [Hr Hi]]]; [now left |].
      right. exists r. split; [now right | exact Hi].
    + split.
      * intros img Hin.
        destruct (Hkeys img Hin) as [Hold | [r [Hr Hi]]].
        -- rewrite contains_app, orb_true_iff in Hold.
           destruct Hold as [Hold | Hnew]; [now left |].
           rewrite contains_one in Hnew. apply String.eqb_eq in Hnew.
           subst img0. right. exists row. split; [now left | exact Himg].
        -- right. exists r. split; [now right | exact Hi].
      * rewrite length_app in Hlen. simpl in *. lia.
Qed.

(** X7.  The keys of the returned index are distinct, each of them is the
    stimulus of a row of the table, and there are at most as many
    entries as rows. *)
Theorem get_keywords_keys_from_rows :
  forall index_csv index,
    get_keywords index_csv = Ok index ->
    unique_keys index /\
    (forall img,
        contains index img = true ->
        exists row, In row (rows index_csv) /\ getitem row "img" = Ok img) /\
    length index <= length (rows index_csv).
Proof.
  intros index_csv index Hindex. split; [| split].
  - exact (proj1 (get_keywords_rows_index _ _ _ keyword_index_nil Hindex)).
  - intros img Hin.
    destruct (proj1 (get_keywords_rows_keys _ _ _ keyword_index_nil Hindex)
                img Hin) as [H | H]; [discriminate H | exact H].
  - exact (proj2 (get_keywords_rows_keys _ _ _ keyword_index_nil Hindex)).
Qed.

Lemma get_keywords_keys_from_rows_witness :
  get_keywords late_table = Ok [("x", ["a"; "b"])] /\
  length [("x", ["a"; "b"])] <= length (rows late_table).
Proof.
  split; [reflexivity |].
  apply (proj2 (proj2 (get_keywords_keys_from_rows late_table
                         [("x", ["a"; "b"])] eq_refl))).
Defined.

(** X8.  The index only grows at its end: what [get_keywords] has stored
    after some rows is the beginning of what it returns, with the same
    entries in the same order. *)
Theorem get_keywords_grows_at_the_end :
  forall index_csv done todo keywords index,
    rows index_csv = done ++ todo ->
    get_keywords_rows [] done = Ok keywords ->
    get_keywords index_csv = Ok index ->
    exists added,
      index = keywords ++ added /\
      length added <= length todo.
Proof.
  intros index_csv done todo keywords index Hrows Hdone Hindex.
  unfold get_keywords in Hindex.
  rewrite Hrows, get_keywords_rows_app, Hdone in Hindex. simpl in Hindex.
  assert (Hk := get_keywords_rows_index _ _ _ keyword_index_nil Hdone).
  destruct (get_keywords_rows_grows _ _ _ Hk Hindex) as [added ->].
  exists added. split; [reflexivity |].
  assert (Hlen := proj2 (get_keywords_rows_keys _ _ _ Hk Hindex)).
  rewrite length_app in Hlen. lia.
Qed.

Lemma get_keywords_grows_at_the_end_witness :
  (rows (wolf_table "wolf_trial2") =
     [row_A] ++ [row_without_words "wolf_trial2"] /\
   get_keywords_rows [] [row_A] = Ok [("A", ["wolf"; "wolves"])] /\
   get_keywords (wolf_table "wolf_trial2") =
     Ok [("A", ["wolf"; "wolves"]); ("wolf_trial2", ["wolf"; "wolves"])]) /\
  exists added,
    [("A", ["wolf"; "wolves"]); ("wolf_trial2", ["wolf"; "wolves"])] =
      [("A", ["wolf"; "wolves"])] ++ added /\
    length added <= length [row_without_words "wolf_trial2"].
Proof.
  split; [repeat split |].
  apply (get_keywords_grows_at_the_end (wolf_table "wolf_trial2")
           [row_A] [row_without_words "wolf_trial2"]
           [("A", ["wolf"; "wolves"])] _ eq_refl eq_refl eq_refl).
Defined.

Lemma str_in_empty (hay : string) : str_in EmptyString hay = true.
Proof. apply str_in_true_iff. now exists EmptyString, hay. Qed.

(** X10.  An entry whose dominant word is empty has a word in every stimulus
    name, the empty string occurring everywhere.  Once such an entry is
    the first of the index, every later row without a secondary word
    whose stimulus is not yet indexed takes over that first entry,
    whatever its name. *)
Theorem empty_dominant_word_matches_every_stimulus :
  forall index_csv before row after source secondary rest img,
    rows index_csv = before ++ row :: after ->
    get_keywords_rows [] before =
      Ok ((source, [EmptyString; secondary]) :: rest) ->
    getitem row "img" = Ok img ->
    contains ((source, [EmptyString; secondary]) :: rest) img = false ->
    getitem row "secondary" = Ok EmptyString ->
    get_keywords_row ((source, [EmptyString; secondary]) :: rest) row =
      Ok (((source, [EmptyString; secondary]) :: rest) ++
          [(img, [EmptyString; secondary])]) /\
    forall index,
      get_keywords index_csv = Ok index ->
      getitem index img = Ok [EmptyString; secondary].
Proof.
  intros index_csv before row after source secondary rest img
         Hrows Hbefore Himg Hin Hsec.
  assert (Hk := get_keywords_rows_index _ _ _ keyword_index_nil Hbefore).
  assert (Hrow := get_keywords_row_implicit _ _ _ Hk Himg Hin Hsec).
  cbn [find snd] in Hrow. unfold word_in at 1 in Hrow.
  cbn [existsb] in Hrow. rewrite str_in_empty in Hrow. cbn [orb] in Hrow.
  split; [exact Hrow |]. intros index Hindex.
  apply (get_keywords_after_row _ _ _ _ _ _ _ _ _ Hrows Hbefore Hrow Hindex).
  now apply getitem_snoc_new.
Qed.

Lemma empty_dominant_word_matches_every_stimulus_witness :
  (get_keywords_rows []
     [metadata_row "A" "Data/rep1/trgt_audio/A.wav" EmptyString "wolves"] =
     Ok [("A", [EmptyString; "wolves"])] /\
   contains [("A", [EmptyString; "wolves"])] "cat.jpg" = false) /\
  get_keywords_row [("A", [EmptyString; "wolves"])]
    (row_without_words "cat.jpg") =
    Ok ([("A", [EmptyString; "wolves"])] ++
        [("cat.jpg", [EmptyString; "wolves"])]).
Proof.
  split; [split; reflexivity |].
  apply (empty_dominant_word_matches_every_stimulus
           {| fieldnames := metadata_columns;
              rows := [metadata_row "A" "Data/rep1/trgt_audio/A.wav"
                         EmptyString "wolves";
                       row_without_words "cat.jpg"] |}
           [metadata_row "A" "Data/rep1/trgt_audio/A.wav"
              EmptyString "wolves"]
           (row_without_words "cat.jpg") [] "A" "wolves" [] "cat.jpg"
           eq_refl eq_refl eq_refl eq_refl eq_refl).
Defined.

(** ** More about the transcriber and the driver *)

Section MoreServiceProperties.

Variable world : Type.
Variable recognize :
  world -> string -> list string ->
  world * result (list SpeechRecognitionResult).

(** X11.  What comes out of [transcribe].  A result is the record of four
    blank fields or the first spot listed under the first key of the
    first segment, never a later spot, key or segment, nor anything of
    the alternatives.  An error is the error of the request itself, or
    the index error of [[0]] on a first key that comes without a
    spot. *)
Theorem transcribe_outcomes :
  forall w audio_path keywords w' outcome,
    transcribe recognize w audio_path keywords = (w', outcome) ->
    match outcome with
    | Ok transcript =>
        exists results,
          recognize w audio_path keywords = (w', Ok results) /\
          (transcript = no_keyword \/
           exists first rest key more others,
             results = first :: rest /\
             keywords_result first =
               Some ((key, transcript :: more) :: others))
    | Raise e =>
        recognize w audio_path keywords = (w', Raise e) \/
        (e = IndexError /\
         exists first rest key others,
           recognize w audio_path keywords = (w', Ok (first :: rest)) /\
           keywords_result first = Some ((key, []) :: others))
    end.
Proof.
  intros w audio_path keywords w' outcome. unfold transcribe.
  destruct (recognize w audio_path keywords) as [w1 [results | e]];
    simpl; intros H; injection H as <- <-; [| now left].
  unfold transcribe_results, spotted.
  destruct results as [| first rest]; simpl.
  { exists []. split; [reflexivity | now left]. }
  destruct (keywords_result first)
    as [[| [key [| spot more]] others] |] eqn:E; simpl;
    try rewrite String.eqb_refl; simpl.
  - exists (first :: rest). split; [reflexivity | now left].
  - right. split; [reflexivity |]. now exists first, rest, key, others.
  - exists (first :: rest). split; [reflexivity |]. right.
    now exists first, rest, key, more, others.
  - exists (first :: rest). split; [reflexivity | now left].
Qed.

Lemma main_row_request keywords st row path path1 path2 path3 img words :
  getitem row "audio_path" = Ok path ->
  unpack3 (last_items 3 (split "/" path)) = Ok (path1, path2, path3) ->
  getitem row "img" = Ok img ->
  getitem keywords img = Ok words ->
  main_row recognize keywords st row =
  match
    transcribe recognize (service st)
      (join data_path [path1; path2; path3]) words
  with
  | (w', Raise e) =>
      ({| service := w'; output_file := output_file st |}, Raise e)
  | (w', Ok transcript) =>
      (writerow {| service := w'; output_file := output_file st |}
         (map PyStr (values row) ++ KeywordResult_values transcript),
       Ok tt)
  end.
Proof.
  intros Hpath Hparts Himg Hwords. unfold main_row.
  rewrite Hpath. cbn [bind]. rewrite Hparts. cbn [bind].
  rewrite Himg. cbn [bind]. rewrite Hwords. reflexivity.
Qed.

(** X12.  An error of the request (the file cannot be opened, the service
    does not answer) is not handled either: the loop ends at that row,
    the lines of the rows before it are in the output and the row
    itself has no line. *)
Theorem service_error_stops_batch :
  forall index_csv keywords st before row after st'
         path path1 path2 path3 img words w' e,
    rows index_csv = before ++ row :: after ->
    get_keywords index_csv = Ok keywords ->
    main_rows recognize keywords
      (writerow st (map PyStr (fieldnames index_csv ++ kws_columns)))
      before = (st', Ok tt) ->
    getitem row "audio_path" = Ok path ->
    unpack3 (last_items 3 (split "/" path)) = Ok (path1, path2, path3) ->
    getitem row "img" = Ok img ->
    getitem keywords img = Ok words ->
    recognize (service st') (join data_path [path1; path2; path3]) words =
      (w', Raise e) ->
    main recognize index_csv st =
      ({| service := w'; output_file := output_file st' |}, Raise e).
Proof.
  intros index_csv keywords st before row after st'
         path path1 path2 path3 img words w' e
         Hrows Hindex Hbefore Hpath Hparts Himg Hwords Hservice.
  unfold main. rewrite Hindex, Hrows, main_rows_app, Hbefore.
  cbn [main_rows].
  rewrite (main_row_request _ _ _ _ _ _ _ _ _ Hpath Hparts Himg Hwords).
  unfold transcribe. now rewrite Hservice.
Qed.

(** X13.  A row whose stimulus has no entry in the index ends the loop with
    the missing-key error, before any request is made for it: the
    state is the one reached after the rows before it. *)
Theorem missing_keywords_stop_batch :
  forall index_csv keywords st before row after st' path img,
    rows index_csv = before ++ row :: after ->
    get_keywords index_csv = Ok keywords ->
    main_rows recognize keywords
      (writerow st (map PyStr (fieldnames index_csv ++ kws_columns)))
      before = (st', Ok tt) ->
    getitem row "audio_path" = Ok path ->
    3 <= length (split "/" path) ->
    getitem row "img" = Ok img ->
    contains keywords img = false ->
    main recognize index_csv st = (st', Raise (KeyError img)).
Proof.
  intros index_csv keywords st before row after st' path img
         Hrows Hindex Hbefore Hpath Hlong Himg Hin.
  unfold main. rewrite Hindex, Hrows, main_rows_app, Hbefore. simpl.
  unfold main_row. rewrite Hpath. simpl.
  destruct (last_items_three _ Hlong) as [a [b [c ->]]]. simpl.
  rewrite Himg. simpl. now rewrite (getitem_absent _ _ Hin).
Qed.

Lemma main_rows_complete keywords csv_reader :
  Forall (fun row =>
            exists path img,
              getitem row "audio_path" = Ok path /\
              3 <= length (split "/" path) /\
              getitem row "img" = Ok img /\
              contains keywords img = true)
         csv_reader ->
  (forall w audio_path words,
      exists w' results transcript,
        recognize w audio_path words = (w', Ok results) /\
        transcribe_results results = Ok transcript) ->
  forall st,
    exists st',
      main_rows recognize keywords st csv_reader = (st', Ok tt) /\
      length (output_file st') =
        length (output_file st) + length csv_reader.
Proof.
  intros Hrows Hservice.
  induction Hrows as [| row csv_reader Hrow _ IH]; intros st; simpl.
  - exists st. split; [reflexivity | lia].
  - destruct Hrow as [path [img [Hpath [Hlong [Himg Hin]]]]].
    destruct (getitem_present _ _ Hin) as [words Hwords].
    destruct (last_items_three _ Hlong) as [a [b [c Hparts]]].
    destruct (Hservice (service st) (join data_path [a; b; c]) words)
      as [w' [results [transcript [Hrec Hres]]]].
    assert (Hone : main_row recognize keywords st row =
              (writerow {| service := w'; output_file := output_file st |}
                 (map PyStr (values row) ++ KeywordResult_values transcript),
               Ok tt)).
    { rewrite (main_row_request _ _ _ _ _ _ _ _ _
                 Hpath Hparts Himg Hwords).
      unfold transcribe. rewrite Hrec. cbn [bind]. now rewrite Hres. }
    rewrite Hone.
    destruct (IH (writerow {| service := w'; output_file := output_file st |}
                    (map PyStr (values row) ++
                     KeywordResult_values transcript)))
      as [st' [Hrun Hlen]].
    exists st'. split; [exact Hrun |].
    rewrite Hlen. simpl. rewrite length_app. simpl. lia.
Qed.

(** X14.  When every row gives its own words and an audio path of at least
    three segments, and every request is answered with results from
    which a record can be taken, the program goes through the whole
    table: it ends without error and has appended the header and one
    line per row. *)
Theorem main_completes_on_explicit_table :
  forall index_csv st,
    Forall explicit_row (rows index_csv) ->
    Forall (fun row =>
              exists path,
                getitem row "audio_path" = Ok path /\
                3 <= length (split "/" path))
           (rows index_csv) ->
    (forall w audio_path words,
        exists w' results transcript,
          recognize w audio_path words = (w', Ok results) /\
          transcribe_results results = Ok transcript) ->
    exists st',
      main recognize index_csv st = (st', Ok tt) /\
      length (output_file st') =
        length (output_file st) + 1 + length (rows index_csv).
Proof.
  intros index_csv st Hexplicit Hpaths Hservice.
  destruct (get_keywords_rows_of_explicit [] _ Hexplicit)
    as [keywords [Hindex [Hkeys _]]].
  unfold main, get_keywords. rewrite Hindex.
  destruct (main_rows_complete keywords (rows index_csv)) with
    (st := writerow st (map PyStr (fieldnames index_csv ++ kws_columns)))
    as [st' [Hrun Hlen]].
  - rewrite Forall_forall in *. intros row Hrow.
    destruct (Hpaths row Hrow) as [path [Hpath Hlong]].
    destruct (Hexplicit row Hrow) as [img [_ [_ [Himg _]]]].
    exists path, img. repeat split; trivial.
    apply Hkeys. right. now exists row.
  - exact Hservice.
  - exists st'. split; [exact Hrun |].
    rewrite Hlen. simpl. rewrite length_app. simpl. lia.
Qed.

End MoreServiceProperties.

Lemma transcribe_outcomes_witness :
  transcribe spotting_service 0 "/d/s1/x/cat.wav" ["cat"; "kitten"] =
    (1, Ok cat_spot) /\
  exists results,
    spotting_service 0 "/d/s1/x/cat.wav" ["cat"; "kitten"] =
      (1, Ok results) /\
    (cat_spot = no_keyword \/
     exists first rest key more others,
       results = first :: rest /\
       keywords_result first = Some ((key, cat_spot :: more) :: others)).
Proof.
  split; [reflexivity |].
  apply (transcribe_outcomes nat spotting_service 0 "/d/s1/x/cat.wav"
           ["cat"; "kitten"] 1 (Ok cat_spot) eq_refl).
Defined.

Lemma service_error_stops_batch_witness :
  (get_keywords cat_table = Ok [("cat.jpg", ["cat"; "kitten"])] /\
   unpack3 (last_items 3 (split "/" "/d/s1/x/cat.wav")) =
     Ok ("s1", "x", "cat.wav") /\
   failing_service 0 (join data_path ["s1"; "x"; "cat.wav"])
     ["cat"; "kitten"] = (1, Raise (ServiceError "unavailable"))) /\
  main failing_service cat_table start_state =
    ({| service := 1; output_file := [cat_header] |},
     Raise (ServiceError "unavailable")).
Proof.
  split; [repeat split |].
  apply (service_error_stops_batch nat failing_service cat_table
           [("cat.jpg", ["cat"; "kitten"])] start_state [] row_cat []
           {| service := 0; output_file := [cat_header] |}
           "/d/s1/x/cat.wav" "s1" "x" "cat.wav" "cat.jpg"
           ["cat"; "kitten"] 1 (ServiceError "unavailable")
           eq_refl eq_refl eq_refl eq_refl eq_refl eq_refl eq_refl eq_refl).
Defined.

Lemma missing_keywords_stop_batch_witness :
  (get_keywords (wolf_table "A_trial2") = Ok [("A", ["wolf"; "wolves"])] /\
   3 <= length (split "/" "Data/rep1/trgt_audio/A2.wav") /\
   contains [("A", ["wolf"; "wolves"])] "A_trial2" = false) /\
  snd (main spotting_service (wolf_table "A_trial2") start_state) =
    Raise (KeyError "A_trial2").
Proof.
  assert (Hlong : 3 <= length (split "/" "Data/rep1/trgt_audio/A2.wav")).
  { simpl. lia. }
  split; [repeat split; trivial |].
  rewrite (missing_keywords_stop_batch nat spotting_service
             (wolf_table "A_trial2") [("A", ["wolf"; "wolves"])]
             start_state [row_A] (row_without_words "A_trial2") []
             (fst (main_rows spotting_service [("A", ["wolf"; "wolves"])]
                     (writerow start_state
                        (map PyStr (fieldnames (wolf_table "A_trial2") ++
                                    kws_columns)))
                     [row_A]))
             "Data/rep1/trgt_audio/A2.wav" "A_trial2"
             eq_refl eq_refl eq_refl eq_refl Hlong eq_refl eq_refl).
  reflexivity.
Defined.

Lemma main_completes_on_explicit_table_witness :
  (Forall explicit_row (rows cat_table) /\
   Forall (fun row =>
             exists path,
               getitem row "audio_path" = Ok path /\
               3 <= length (split "/" path))
          (rows cat_table)) /\
  exists st',
    main spotting_service cat_table start_state = (st', Ok tt) /\
    length (output_file st') =
      length (output_file start_state) + 1 + length (rows cat_table).
Proof.
  assert (Hexplicit : Forall explicit_row (rows cat_table)).
  { repeat constructor. exists "cat.jpg", "cat", "kitten".
    repeat split; try reflexivity; discriminate. }
  assert (Hpaths : Forall (fun row =>
                             exists path,
                               getitem row "audio_path" = Ok path /\
                               3 <= length (split "/" path))
                     (rows cat_table)).
  { repeat constructor. exists "/d/s1/x/cat.wav".
    split; [reflexivity | simpl; lia]. }
  split; [split; assumption |].
  apply (main_completes_on_explicit_table nat spotting_service
           cat_table start_state Hexplicit Hpaths).
  intros w audio_path [| k words].
  - now exists (S w), [{| keywords_result := None;
                          alternatives := [];
                          final := true |}], no_keyword.
  - eexists (S w), _, _. split; [reflexivity |].
    unfold transcribe_results. simpl. now rewrite String.eqb_refl.
Defined.

(** ** Row order *)

(** X15.  Taking words over depends on the order of the rows.  Of a row with
    words and a row without words for another stimulus in whose name
    one of those words occurs, the second gets the words of the first
    when it comes after it, and no entry at all when it comes before
    it. *)
Theorem inheritance_depends_on_row_order :
  forall columns explicit implicit named img dominant secondary,
    getitem explicit "img" = Ok named ->
    getitem explicit "dominant" = Ok dominant ->
    getitem explicit "secondary" = Ok secondary ->
    secondary <> EmptyString ->
    getitem implicit "img" = Ok img ->
    getitem implicit "secondary" = Ok EmptyString ->
    img <> named ->
    is_substring dominant img \/ is_substring secondary img ->
    get_keywords {| fieldnames := columns; rows := [explicit; implicit] |} =
      Ok [(named, [dominant; secondary]); (img, [dominant; secondary])] /\
    get_keywords {| fieldnames := columns; rows := [implicit; explicit] |} =
      Ok [(named, [dominant; secondary])].
Proof.
  intros columns explicit implicit named img dominant secondary
         Hnamed Hdom Hsec Hne Himg Hempty Hdiff Hmatch.
  assert (Hfirst : get_keywords_row [] explicit =
                   Ok [(named, [dominant; secondary])]).
  { now apply (get_keywords_row_explicit [] explicit named
                 dominant secondary). }
  assert (Hk : keyword_index [(named, [dominant; secondary])]).
  { exact (get_keywords_row_index _ _ _ keyword_index_nil Hfirst). }
  assert (Hin : contains [(named, [dominant; secondary])] img = false).
  { rewrite contains_one. apply String.eqb_neq. congruence. }
  assert (Hw : word_in img [dominant; secondary] = true).
  { apply word_in_true_iff. simpl.
    destruct Hmatch as [H | H];
      [exists dominant | exists secondary]; tauto. }
  unfold get_keywords. cbn [rows get_keywords_rows]. split.
  - rewrite Hfirst. cbn [bind].
    rewrite (get_keywords_row_implicit _ _ _ Hk Himg Hin Hempty).
    cbn [find snd]. rewrite Hw. reflexivity.
  - rewrite (get_keywords_row_implicit [] implicit img
               keyword_index_nil Himg eq_refl Hempty).
    cbn [find bind]. now rewrite Hfirst.
Qed.

Lemma inheritance_depends_on_row_order_witness :
  ("wolf_trial2" <> "A" /\
   (is_substring "wolf" "wolf_trial2" \/
    is_substring "wolves" "wolf_trial2")) /\
  get_keywords {| fieldnames := metadata_columns;
                  rows := [row_A; row_without_words "wolf_trial2"] |} =
    Ok [("A", ["wolf"; "wolves"]); ("wolf_trial2", ["wolf"; "wolves"])] /\
  get_keywords {| fieldnames := metadata_columns;
                  rows := [row_without_words "wolf_trial2"; row_A] |} =
    Ok [("A", ["wolf"; "wolves"])].
Proof.
  assert (Hsub : is_substring "wolf" "wolf_trial2" \/
                 is_substring "wolves" "wolf_trial2").
  { left. exists EmptyString, "_trial2". reflexivity. }
  split; [split; [discriminate | exact Hsub] |].
  apply (inheritance_depends_on_row_order metadata_columns
           row_A (row_without_words "wolf_trial2")
           "A" "wolf_trial2" "wolf" "wolves");
    try reflexivity; try discriminate. exact Hsub.
Defined.

(** * Properties of the program in [Raw] *)

(** ** Keys and dictionaries *)

Lemma key_eqb_eq (a b : Raw.key) : Raw.key_eqb a b = true <-> a = b.
Proof.
  destruct a as [x |], b as [y |]; simpl; try (split; congruence).
  rewrite String.eqb_eq. split; congruence.
Qed.

Lemma key_eqb_refl (a : Raw.key) : Raw.key_eqb a a = true.
Proof. now apply key_eqb_eq. Qed.

Lemma key_eqb_neq (a b : Raw.key) : Raw.key_eqb a b = false <-> a <> b.
Proof.
  rewrite <- key_eqb_eq. destruct (Raw.key_eqb a b); split; intros H.
  - discriminate H.
  - now elim H.
  - discriminate.
  - reflexivity.
Qed.

Lemma raw_bind_Ok_inv {A B : Type} (c : Raw.result A)
    (k : A -> Raw.result B) (b : B) :
  Raw.bind c k = Raw.Ok b -> exists a, c = Raw.Ok a /\ k a = Raw.Ok b.
Proof.
  destruct c as [a | e]; simpl; intros H.
  - exists a. split; [reflexivity | exact H].
  - discriminate H.
Qed.

Section RawDict.

Context {V : Type}.
Implicit Types (d : Raw.rdict V) (k : Raw.key) (v : V).

Lemma raw_contains_true_iff d k :
  Raw.contains d k = true <-> In k (Raw.keys d).
Proof.
  unfold Raw.contains, Raw.keys. induction d as [| [k' v'] d IH]; simpl.
  - split; [discriminate | tauto].
  - rewrite orb_true_iff, IH, key_eqb_eq. tauto.
Qed.

Lemma raw_contains_false_iff d k :
  Raw.contains d k = false <-> ~ In k (Raw.keys d).
Proof.
  rewrite <- raw_contains_true_iff.
  destruct (Raw.contains d k); split; intros H.
  - discriminate H.
  - now elim H.
  - discriminate.
  - reflexivity.
Qed.


Lemma raw_getitem_absent d k :
  Raw.contains d k = false -> Raw.getitem d k = Raw.Raise (Raw.KeyError k).
Proof.
  unfold Raw.contains. induction d as [| [k' v'] d IH]; simpl; intros H.
  - reflexivity.
  - apply orb_false_iff in H as [Hk Hd]. rewrite Hk. now apply IH.
Qed.

Lemma raw_getitem_present d k :
  Raw.contains d k = true -> exists v, Raw.getitem d k = Raw.Ok v.
Proof.
  unfold Raw.contains. induction d as [| [k' v'] d IH]; simpl; intros H.
  - discriminate H.
  - destruct (Raw.key_eqb k' k).
    + now exists v'.
    + now apply IH.
Qed.

Lemma raw_getitem_Ok_In d k v : Raw.getitem d k = Raw.Ok v -> In (k, v) d.
Proof.
  induction d as [| [k' v'] d IH]; simpl; intros H.
  - discriminate H.
  - destruct (Raw.key_eqb k' k) eqn:E.
    + apply key_eqb_eq in E. injection H as ->. left. now rewrite E.
    + right. now apply IH.
Qed.

Lemma raw_getitem_Raise d k e :
  Raw.getitem d k = Raw.Raise e ->
  e = Raw.KeyError k /\ Raw.contains d k = false.
Proof.
  intros H. destruct (Raw.contains d k) eqn:E.
  - destruct (raw_getitem_present d k E) as [v Hv]. rewrite Hv in H.
    discriminate H.
  - rewrite (raw_getitem_absent d k E) in H. injection H as <-. now split.
Qed.

Lemma raw_getitem_app_r d d' k :
  Raw.contains d k = false -> Raw.getitem (d ++ d') k = Raw.getitem d' k.
Proof.
  unfold Raw.contains. induction d as [| [k' v'] d IH]; simpl; intros H.
  - reflexivity.
  - apply orb_false_iff in H as [Hk Hd]. rewrite Hk. now apply IH.
Qed.

Lemma raw_setitem_absent d k v :
  Raw.contains d k = false -> Raw.setitem d k v = d ++ [(k, v)].
Proof.
  unfold Raw.contains. induction d as [| [k' v'] d IH]; simpl; intros H.
  - reflexivity.
  - apply orb_false_iff in H as [Hk Hd]. rewrite Hk. f_equal. now apply IH.
Qed.

Lemma raw_contains_setitem d k v k' :
  Raw.contains (Raw.setitem d k v) k' =
  Raw.contains d k' || Raw.key_eqb k k'.
Proof.
  unfold Raw.contains. induction d as [| [k0 v0] d IH]; simpl.
  - now rewrite orb_false_r.
  - destruct (Raw.key_eqb k0 k) eqn:E; simpl.
    + apply key_eqb_eq in E. subst k0.
      destruct (Raw.key_eqb k k'), (existsb _ d); reflexivity.
    + rewrite IH. now rewrite orb_assoc.
Qed.

(** A property of the items that the stored item has is kept. *)
Lemma raw_setitem_Forall (P : Raw.key -> V -> Prop) d k v :
  Forall (fun kv => P (fst kv) (snd kv)) d -> P k v ->
  Forall (fun kv => P (fst kv) (snd kv)) (Raw.setitem d k v).
Proof.
  intros Hd Hkv. induction Hd as [| [k0 v0] d H0 Hd IH]; simpl.
  - constructor; [exact Hkv | constructor].
  - destruct (Raw.key_eqb k0 k) eqn:E.
    + apply key_eqb_eq in E. subst k0. constructor; [exact Hkv | exact Hd].
    + constructor; [exact H0 | exact IH].
Qed.

Lemma raw_unique_keys_snoc d k v :
  NoDup (Raw.keys d) -> Raw.contains d k = false ->
  NoDup (Raw.keys (d ++ [(k, v)])).
Proof.
  unfold Raw.keys. intros Hd Hk. rewrite map_app. simpl.
  apply raw_contains_false_iff in Hk.
  apply NoDup_app; [exact Hd | constructor; [tauto | constructor] |].
  intros x Hx [<- | []]. now apply Hk.
Qed.

Lemma raw_getitem_middle d d' k v :
  NoDup (Raw.keys (d ++ (k, v) :: d')) ->
  Raw.getitem (d ++ (k, v) :: d') k = Raw.Ok v.
Proof.
  unfold Raw.keys. rewrite map_app. simpl. intros H.
  apply NoDup_remove_2 in H.
  rewrite raw_getitem_app_r.
  - simpl. now rewrite key_eqb_refl.
  - apply raw_contains_false_iff. intros Hin. apply H, in_or_app. now left.
Qed.

End RawDict.

(** ** The rows of the reader *)

Section Folds.

Context {A : Type} (f : A -> Raw.key) (g : A -> Raw.cell).

Lemma fold_setitem_contains (l : list A) (d : Raw.rdict Raw.cell) k :
  Raw.contains
    (fold_left (fun d x => Raw.setitem d (f x) (g x)) l d) k =
  Raw.contains d k || existsb (fun x => Raw.key_eqb (f x) k) l.
Proof.
  revert d. induction l as [| x l IH]; intros d; simpl.
  - now rewrite orb_false_r.
  - rewrite IH, raw_contains_setitem. now rewrite orb_assoc.
Qed.

Lemma fold_setitem_Forall (P : Raw.key -> Raw.cell -> Prop)
    (l : list A) (d : Raw.rdict Raw.cell) :
  Forall (fun kv => P (fst kv) (snd kv)) d ->
  Forall (fun x => P (f x) (g x)) l ->
  Forall (fun kv => P (fst kv) (snd kv))
    (fold_left (fun d x => Raw.setitem d (f x) (g x)) l d).
Proof.
  intros Hd Hl. revert d Hd. induction Hl as [| x l Hx _ IH];
    intros d Hd; simpl; [exact Hd |].
  apply IH. now apply raw_setitem_Forall.
Qed.

End Folds.

Lemma read_row_is_reader_row names line :
  reader_row (Raw.read_row names line).
Proof.
  unfold reader_row, Raw.read_row.
  assert (Hzip : Forall (fun kv : Raw.key * Raw.cell =>
                           match fst kv, snd kv with
                           | Some _, Raw.Rest _ => False
                           | _, _ => True
                           end) (Raw.dict_zip names line)).
  { unfold Raw.dict_zip.
    apply (fold_setitem_Forall (fun nx => Some (fst nx))
             (fun nx => Raw.Field (snd nx))
             (fun k c => match k, c with
                         | Some _, Raw.Rest _ => False
                         | _, _ => True
                         end)).
    - constructor.
    - apply Forall_forall. intros x _. exact I. }
  destruct (Nat.ltb (length names) (length line)).
  - apply (raw_setitem_Forall
             (fun k c => match k, c with
                         | Some _, Raw.Rest _ => False
                         | _, _ => True
                         end)); [exact Hzip | exact I].
  - apply (fold_setitem_Forall (fun name => Some name)
             (fun _ => Raw.Missing)
             (fun k c => match k, c with
                         | Some _, Raw.Rest _ => False
                         | _, _ => True
                         end)); [exact Hzip |].
    apply Forall_forall. intros x _. exact I.
Qed.

Lemma read_row_complete names line :
  length names <= length line -> complete_row (Raw.read_row names line).
Proof.
  intros Hlen. unfold complete_row, Raw.read_row.
  assert (Hzip : Forall (fun kv : Raw.key * Raw.cell =>
                           match fst kv with
                           | Some _ => exists s, snd kv = Raw.Field s
                           | None => True
                           end) (Raw.dict_zip names line)).
  { unfold Raw.dict_zip.
    apply (fold_setitem_Forall (fun nx => Some (fst nx))
             (fun nx => Raw.Field (snd nx))
             (fun k c => match k with
                         | Some _ => exists s, c = Raw.Field s
                         | None => True
                         end)).
    - constructor.
    - apply Forall_forall. intros x _. now exists (snd x). }
  destruct (Nat.ltb (length names) (length line)).
  - apply (raw_setitem_Forall
             (fun k c => match k with
                         | Some _ => exists s, c = Raw.Field s
                         | None => True
                         end)); [exact Hzip | exact I].
  - replace (skipn (length line) names) with (@nil string);
      [exact Hzip |].
    symmetry. apply skipn_all2. exact Hlen.
Qed.

(** A row has an item for a name exactly when the header has the
    name, whatever the length of the line. *)
Lemma read_row_contains names line name :
  Raw.contains (Raw.read_row names line) (Some name) = true <->
  In name names.
Proof.
  unfold Raw.read_row.
  assert (Hzip : Raw.contains (Raw.dict_zip names line) (Some name) =
                 existsb (String.eqb name)
                   (firstn (length line) names)).
  { unfold Raw.dict_zip.
    rewrite (fold_setitem_contains (fun nx => Some (fst nx))
               (fun nx => Raw.Field (snd nx))).
    simpl. clear. revert line.
    induction names as [| n names IH]; intros [| x line]; simpl;
      try reflexivity.
    rewrite IH. now rewrite (String.eqb_sym n name). }
  destruct (Nat.ltb (length names) (length line)) eqn:E.
  - rewrite raw_contains_setitem, Hzip. simpl. rewrite orb_false_r.
    apply Nat.ltb_lt in E.
    rewrite firstn_all2 by lia.
    rewrite existsb_exists. split.
    + intros [x [Hx Heq]]. apply String.eqb_eq in Heq. now subst.
    + intros H. exists name. split; [exact H | apply String.eqb_refl].
  - rewrite (fold_setitem_contains (fun n => Some n)
               (fun _ => Raw.Missing)), Hzip.
    rewrite <- (firstn_skipn (length line) names) at 3.
    rewrite orb_true_iff, !existsb_exists, in_app_iff. split.
    + intros [[x [Hx Heq]] | [x [Hx Heq]]].
      * apply String.eqb_eq in Heq. subst. now left.
      * simpl in Heq. apply String.eqb_eq in Heq. subst. now right.
    + intros [H | H]; [left | right]; exists name; split; trivial.
      * apply String.eqb_refl.
      * simpl. apply String.eqb_refl.
Qed.

Lemma DictReader_rows names lines row :
  In row (Raw.DictReader (names :: lines)) ->
  exists line,
    In line lines /\ Raw.blank line = false /\
    row = Raw.read_row names line.
Proof.
  simpl. rewrite in_map_iff. intros [line [<- Hin]].
  apply filter_In in Hin as [Hin Hb]. exists line.
  repeat split; trivial. now destruct (Raw.blank line).
Qed.

Lemma DictReader_reader_rows file : Forall reader_row (Raw.DictReader file).
Proof.
  destruct file as [| names lines]; [constructor |].
  apply Forall_forall. intros row Hrow.
  destruct (DictReader_rows _ _ _ Hrow) as [line [_ [_ ->]]].
  apply read_row_is_reader_row.
Qed.

Lemma DictReader_complete_rows names lines :
  complete_lines names lines ->
  Forall complete_row (Raw.DictReader (names :: lines)).
Proof.
  intros Hc. apply Forall_forall. intros row Hrow.
  destruct (DictReader_rows _ _ _ Hrow) as [line [Hin [Hb ->]]].
  unfold complete_lines in Hc. rewrite Forall_forall in Hc.
  destruct (Hc line Hin) as [H | H]; [congruence |].
  now apply read_row_complete.
Qed.

(** ** The index of [Raw.get_keywords] *)

Lemma raw_index_nil : raw_index [].
Proof. split; constructor. Qed.

Lemma words_index_nil : words_index [].
Proof. split; constructor. Qed.

Lemma stored_words_entry entry : stored_words entry -> stored_entry entry.
Proof.
  intros [d [s [-> Hs]]]. exists (Raw.Field d), s.
  repeat split; trivial. right. now exists d.
Qed.

Lemma words_index_raw_index keywords :
  words_index keywords -> raw_index keywords.
Proof.
  intros [Hu Hf]. split; [exact Hu |].
  eapply Forall_impl; [| exact Hf]. intros kv. apply stored_words_entry.
Qed.

Lemma py_in_Raise w c e :
  Raw.py_in w c = Raw.Raise e -> e = Raw.TypeError.
Proof.
  destruct c as [s | | l]; destruct w; simpl; intros H;
    try discriminate H; now injection H.
Qed.

(** With the index in good order the scan does not fail on an index
    or on a key: it finds nothing, stops at a stored entry, or raises
    the type error of [in]. *)
Lemma raw_find_same_outcome keywords img :
  raw_index keywords ->
  forall todo scanned,
    keywords = scanned ++ todo ->
    match Raw.find_same keywords (Raw.keys todo) img with
    | Raw.Ok same => same = [] \/ exists k, In (k, same) todo
    | Raw.Raise e => e = Raw.TypeError
    end.
Proof.
  intros [Hu Hf]. induction todo as [| [k entry] todo IH];
    intros scanned Hkw; simpl.
  - now left.
  - subst keywords. rewrite (raw_getitem_middle _ _ _ _ Hu). simpl.
    assert (He : stored_entry entry).
    { apply Forall_app in Hf as [_ Hf]. now inversion Hf. }
    destruct He as [d [s [-> _]]]. simpl.
    destruct (Raw.py_in d img) as [[|] | e] eqn:E0; simpl.
    + right. exists k. now left.
    + destruct (Raw.py_in (Raw.Field s) img) as [[|] | e] eqn:E1; simpl.
      * right. exists k. now left.
      * specialize (IH (scanned ++ [(k, [d; Raw.Field s])])).
        rewrite <- app_assoc in IH. specialize (IH eq_refl).
        destruct (Raw.find_same _ (Raw.keys todo) img) as [same | e];
          [| exact IH].
        destruct IH as [-> | [k' Hin]]; [now left |].
        right. exists k'. now right.
      * exact (py_in_Raise _ _ _ E1).
    + exact (py_in_Raise _ _ _ E0).
Qed.

(** With strings only, in the index and for the stimulus of the row,
    the scan does not raise. *)
Lemma raw_find_same_words keywords img :
  words_index keywords ->
  forall todo scanned,
    keywords = scanned ++ todo ->
    exists same,
      Raw.find_same keywords (Raw.keys todo) (Raw.Field img) =
        Raw.Ok same /\
      (same = [] \/ exists k, In (k, same) todo).
Proof.
  intros [Hu Hf]. induction todo as [| [k entry] todo IH];
    intros scanned Hkw; simpl.
  - exists []. split; [reflexivity | now left].
  - subst keywords. rewrite (raw_getitem_middle _ _ _ _ Hu). simpl.
    assert (He : stored_words entry).
    { apply Forall_app in Hf as [_ Hf]. now inversion Hf. }
    destruct He as [d [s [-> _]]]. simpl.
    destruct (str_in d img); simpl.
    + eexists. split; [reflexivity |]. right. exists k. now left.
    + destruct (str_in s img); simpl.
      * eexists. split; [reflexivity |]. right. exists k. now left.
      * specialize (IH (scanned ++ [(k, [Raw.Field d; Raw.Field s])])).
        rewrite <- app_assoc in IH.
        destruct (IH eq_refl) as [same [Hsame Hin]].
        exists same. split; [exact Hsame |].
        destruct Hin as [-> | [k' Hin]]; [now left |].
        right. exists k'. now right.
Qed.

Lemma reader_row_value row name c :
  reader_row row -> Raw.getitem row (Some name) = Raw.Ok c ->
  c = Raw.Missing \/ exists s, c = Raw.Field s.
Proof.
  unfold reader_row. rewrite Forall_forall. intros Hrow Hget.
  apply raw_getitem_Ok_In in Hget. specialize (Hrow _ Hget). simpl in Hrow.
  destruct c as [s | | l]; [right; now exists s | now left | elim Hrow].
Qed.

Lemma complete_row_value row name c :
  complete_row row -> Raw.getitem row (Some name) = Raw.Ok c ->
  exists s, c = Raw.Field s.
Proof.
  unfold complete_row. rewrite Forall_forall. intros Hrow Hget.
  apply raw_getitem_Ok_In in Hget. exact (Hrow _ Hget).
Qed.

(** What one row does in the general case. *)
Lemma raw_row_outcome keywords row :
  raw_index keywords -> reader_row row ->
  match Raw.get_keywords_row keywords row with
  | Raw.Ok keywords' =>
      keywords' = keywords \/
      exists k entry,
        keywords' = keywords ++ [(k, entry)] /\
        Raw.contains keywords k = false /\ stored_entry entry
  | Raw.Raise e =>
      e = Raw.TypeError \/
      exists column,
        In column ["img"; "secondary"; "dominant"] /\
        e = Raw.KeyError (Some column) /\
        Raw.contains row (Some column) = false
  end.
Proof.
  intros Hk Hrow. unfold Raw.get_keywords_row.
  destruct (Raw.getitem row (Some "img")) as [img |] eqn:Himg; simpl.
  2:{ apply raw_getitem_Raise in Himg as [-> Hc]. right.
      exists "img". repeat split; trivial. now left. }
  assert (Hhash : exists k, Raw.hashable img = Raw.Ok k).
  { destruct (reader_row_value _ _ _ Hrow Himg) as [-> | [s ->]];
      eexists; reflexivity. }
  destruct Hhash as [k ->]. simpl.
  destruct (Raw.contains keywords k) eqn:Hin; simpl; [now left |].
  destruct (Raw.getitem row (Some "secondary")) as [secondary |] eqn:Hsec;
    simpl.
  2:{ apply raw_getitem_Raise in Hsec as [-> Hc]. right.
      exists "secondary". repeat split; trivial. right. now left. }
  destruct (Raw.truthy secondary) eqn:Hs.
  - destruct (Raw.getitem row (Some "dominant")) as [dominant |] eqn:Hdom;
      simpl.
    2:{ apply raw_getitem_Raise in Hdom as [-> Hc]. right.
        exists "dominant". repeat split; trivial. right. right. now left. }
    right. exists k, [dominant; secondary].
    split; [now apply raw_setitem_absent |]. split; [exact Hin |].
    destruct (reader_row_value _ _ _ Hrow Hsec) as [-> | [s ->]];
      [discriminate Hs |].
    exists dominant, s. split; [reflexivity |].
    split; [now apply truthy_true_iff |].
    exact (reader_row_value _ _ _ Hrow Hdom).
  - assert (Hscan := raw_find_same_outcome keywords img Hk
                       keywords [] eq_refl).
    destruct (Raw.find_same keywords (Raw.keys keywords) img)
      as [same | e]; simpl; [| now left].
    destruct Hscan as [-> | [k' Hin']]; [now left |].
    destruct Hk as [_ Hf]. rewrite Forall_forall in Hf.
    assert (He := Hf _ Hin'). simpl in He.
    destruct He as [d [s [-> Hds]]]. simpl.
    right. exists k, [d; Raw.Field s].
    split; [now apply raw_setitem_absent |]. split; [exact Hin |].
    now exists d, s.
Qed.

(** What one row does when all its values are strings and the index
    holds strings only. *)
Lemma raw_row_outcome_complete keywords row :
  words_index keywords -> complete_row row ->
  match Raw.get_keywords_row keywords row with
  | Raw.Ok keywords' =>
      keywords' = keywords \/
      exists k entry,
        keywords' = keywords ++ [(k, entry)] /\
        Raw.contains keywords k = false /\ stored_words entry
  | Raw.Raise e =>
      exists column,
        In column ["img"; "secondary"; "dominant"] /\
        e = Raw.KeyError (Some column) /\
        Raw.contains row (Some column) = false
  end.
Proof.
  intros Hk Hrow. unfold Raw.get_keywords_row.
  destruct (Raw.getitem row (Some "img")) as [img |] eqn:Himg; simpl.
  2:{ apply raw_getitem_Raise in Himg as [-> Hc].
      exists "img". repeat split; trivial. now left. }
  destruct (complete_row_value _ _ _ Hrow Himg) as [x ->]. simpl.
  destruct (Raw.contains keywords (Some x)) eqn:Hin; simpl; [now left |].
  destruct (Raw.getitem row (Some "secondary")) as [secondary |] eqn:Hsec;
    simpl.
  2:{ apply raw_getitem_Raise in Hsec as [-> Hc].
      exists "secondary". repeat split; trivial. right. now left. }
  destruct (complete_row_value _ _ _ Hrow Hsec) as [s ->].
  destruct (Raw.truthy (Raw.Field s)) eqn:Hs.
  - destruct (Raw.getitem row (Some "dominant")) as [dominant |] eqn:Hdom;
      simpl.
    2:{ apply raw_getitem_Raise in Hdom as [-> Hc].
        exists "dominant". repeat split; trivial. right. right. now left. }
    destruct (complete_row_value _ _ _ Hrow Hdom) as [d ->].
    right. exists (Some x), [Raw.Field d; Raw.Field s].
    split; [now apply raw_setitem_absent |]. split; [exact Hin |].
    exists d, s. split; [reflexivity | now apply truthy_true_iff].
  - destruct (raw_find_same_words keywords x Hk keywords [] eq_refl)
      as [same [-> Hsame]]. simpl.
    destruct Hsame as [-> | [k' Hin']]; [now left |].
    destruct Hk as [_ Hf]. rewrite Forall_forall in Hf.
    assert (He := Hf _ Hin'). simpl in He.
    destruct He as [d [s' [-> Hs']]]. simpl.
    right. exists (Some x), [Raw.Field d; Raw.Field s'].
    split; [now apply raw_setitem_absent |]. split; [exact Hin |].
    now exists d, s'.
Qed.

Lemma raw_index_snoc keywords k entry :
  raw_index keywords -> Raw.contains keywords k = false ->
  stored_entry entry -> raw_index (keywords ++ [(k, entry)]).
Proof.
  intros [Hu Hf] Hin He. split.
  - now apply raw_unique_keys_snoc.
  - apply Forall_app. split; [exact Hf |]. now repeat constructor.
Qed.

Lemma words_index_snoc keywords k entry :
  words_index keywords -> Raw.contains keywords k = false ->
  stored_words entry -> words_index (keywords ++ [(k, entry)]).
Proof.
  intros [Hu Hf] Hin He. split.
  - now apply raw_unique_keys_snoc.
  - apply Forall_app. split; [exact Hf |]. now repeat constructor.
Qed.

Lemma raw_rows_index csv_reader :
  Forall reader_row csv_reader ->
  forall keywords keywords',
    raw_index keywords ->
    Raw.get_keywords_rows keywords csv_reader = Raw.Ok keywords' ->
    raw_index keywords'.
Proof.
  induction 1 as [| row csv_reader Hrow _ IH]; intros keywords keywords' Hk H;
    simpl in H.
  - now injection H as <-.
  - assert (Hone := raw_row_outcome keywords row Hk Hrow).
    destruct (Raw.get_keywords_row keywords row) as [keywords1 | e];
      simpl in H; [| discriminate H].
    apply (IH keywords1); [| exact H].
    destruct Hone as [-> | [k [entry [-> [Hin He]]]]]; [exact Hk |].
    now apply raw_index_snoc.
Qed.

Lemma raw_rows_words csv_reader :
  Forall complete_row csv_reader ->
  forall keywords,
    words_index keywords ->
    match Raw.get_keywords_rows keywords csv_reader with
    | Raw.Ok keywords' => words_index keywords'
    | Raw.Raise e =>
        exists row column,
          In row csv_reader /\
          In column ["img"; "secondary"; "dominant"] /\
          e = Raw.KeyError (Some column) /\
          Raw.contains row (Some column) = false
    end.
Proof.
  induction 1 as [| row csv_reader Hrow _ IH]; intros keywords Hk; simpl.
  - exact Hk.
  - assert (Hone := raw_row_outcome_complete keywords row Hk Hrow).
    destruct (Raw.get_keywords_row keywords row) as [keywords1 | e]; simpl.
    + assert (Hk1 : words_index keywords1).
      { destruct Hone as [-> | [k [entry [-> [Hin He]]]]]; [exact Hk |].
        now apply words_index_snoc. }
      specialize (IH keywords1 Hk1).
      destruct (Raw.get_keywords_rows keywords1 csv_reader); [exact IH |].
      destruct IH as [r [column [Hr Hc]]].
      exists r, column. split; [now right | exact Hc].
    + destruct Hone as [column Hc]. exists row, column.
      split; [now left | exact Hc].
Qed.


Lemma raw_get_keywords_rows_app keywords
    (done todo : list (Raw.rdict Raw.cell)) :
  Raw.get_keywords_rows keywords (done ++ todo) =
  Raw.bind (Raw.get_keywords_rows keywords done)
    (fun keywords' => Raw.get_keywords_rows keywords' todo).
Proof.
  revert keywords. induction done as [| row done IH]; intros keywords; simpl.
  - reflexivity.
  - destruct (Raw.get_keywords_row keywords row) as [keywords' | e]; simpl.
    + apply IH.
    + reflexivity.
Qed.

(** ** The claims settled on [Raw] *)

(** C10, as the code has it.  After any number of rows, and in the
    index that is returned, every stored value is a list of exactly two
    elements; the second is a string that is not empty; the first is a
    string or [None], and it is a string when every line of the table
    has at least as many fields as the header. *)
Theorem raw_get_keywords_stored_entries :
  forall index_csv done todo keywords,
    Raw.DictReader index_csv = done ++ todo ->
    Raw.get_keywords_rows [] done = Raw.Ok keywords ->
    Forall (fun kv => stored_entry (snd kv)) keywords /\
    (forall names lines,
        index_csv = names :: lines -> complete_lines names lines ->
        Forall (fun kv => stored_words (snd kv)) keywords).
Proof.
  intros index_csv done todo keywords Hrows Hdone. split.
  - assert (Hr := DictReader_reader_rows index_csv).
    rewrite Hrows in Hr. apply Forall_app in Hr as [Hr _].
    exact (proj2 (raw_rows_index done Hr [] keywords raw_index_nil Hdone)).
  - intros names lines -> Hc.
    assert (Hr := DictReader_complete_rows names lines Hc).
    rewrite Hrows in Hr. apply Forall_app in Hr as [Hr _].
    assert (H := raw_rows_words done Hr [] words_index_nil).
    rewrite Hdone in H. exact (proj2 H).
Qed.

Lemma raw_get_keywords_stored_entries_witness :
  (Raw.DictReader short_line_file =
     [Raw.read_row ["img"; "secondary"; "dominant"] ["A"; "wolves"]] ++ [] /\
   Raw.get_keywords_rows []
     [Raw.read_row ["img"; "secondary"; "dominant"] ["A"; "wolves"]] =
     Raw.Ok [(Some "A", [Raw.Missing; Raw.Field "wolves"])]) /\
  Forall (fun kv => stored_entry (snd kv))
    [(Some "A", [Raw.Missing; Raw.Field "wolves"])].
Proof.
  split; [split; reflexivity |].
  apply (proj1 (raw_get_keywords_stored_entries short_line_file
                  [Raw.read_row ["img"; "secondary"; "dominant"]
                     ["A"; "wolves"]] []
                  [(Some "A", [Raw.Missing; Raw.Field "wolves"])]
                  eq_refl eq_refl)).
Defined.

(** C10, as the claim has it, fails on a table with a short line: the
    line [A,wolves] under the header [img,secondary,dominant] has no
    dominant field, the reader gives [None] for it, and the stored
    value is [[None, 'wolves']], which is not two strings. *)
Lemma short_line_counterexample :
  Raw.get_keywords short_line_file =
    Raw.Ok [(Some "A", [Raw.Missing; Raw.Field "wolves"])] /\
  ~ (forall index_csv index,
        Raw.get_keywords index_csv = Raw.Ok index ->
        Forall (fun kv => stored_words (snd kv)) index).
Proof.
  split; [reflexivity |]. intros H.
  specialize (H short_line_file _ eq_refl).
  inversion H as [| ? ? [d [s [Heq _]]] _]; subst. discriminate Heq.
Qed.

Lemma complete_rows_total csv_reader :
  Forall complete_row csv_reader ->
  Forall (fun row =>
            Raw.contains row (Some "img") = true /\
            Raw.contains row (Some "secondary") = true /\
            Raw.contains row (Some "dominant") = true) csv_reader ->
  forall keywords,
    words_index keywords ->
    exists keywords', Raw.get_keywords_rows keywords csv_reader =
                      Raw.Ok keywords'.
Proof.
  intros Hc Hcols keywords Hk.
  assert (H := raw_rows_words csv_reader Hc keywords Hk).
  destruct (Raw.get_keywords_rows keywords csv_reader) as [keywords' | e];
    [now exists keywords' |].
  destruct H as [row [column [Hrow [Hcol [_ Hno]]]]].
  rewrite Forall_forall in Hcols.
  destruct (Hcols row Hrow) as [Hi [Hs Hd]].
  destruct Hcol as [<- | [<- | [<- | []]]]; congruence.
Qed.

(** C8, as the code has it.  On a table with the column [img] and
    without the column [secondary], [get_keywords] returns a mapping,
    the empty one, only when the table has no row: with at least one
    line that is not blank, reading the secondary field of the first
    row raises the missing-key error. *)
Theorem raw_get_keywords_without_secondary_column :
  forall names lines,
    In "img" names ->
    ~ In "secondary" names ->
    (Forall (fun line => Raw.blank line = true) lines ->
     Raw.get_keywords (names :: lines) = Raw.Ok []) /\
    ((exists line, In line lines /\ Raw.blank line = false) ->
     Raw.get_keywords (names :: lines) =
       Raw.Raise (Raw.KeyError (Some "secondary"))).
Proof.
  intros names lines Himg Hsec. unfold Raw.get_keywords. simpl. split.
  - intros Hblank.
    replace (filter (fun l => negb (Raw.blank l)) lines)
      with (@nil (list string)); [reflexivity |].
    induction Hblank as [| line lines Hb _ IH]; simpl; [reflexivity |].
    now rewrite Hb.
  - intros [line [Hin Hb]].
    destruct (filter (fun l => negb (Raw.blank l)) lines)
      as [| first rest] eqn:E.
    { assert (Hf : In line (filter (fun l => negb (Raw.blank l)) lines)).
      { apply filter_In. split; [exact Hin | now rewrite Hb]. }
      rewrite E in Hf. elim Hf. }
    simpl. unfold Raw.get_keywords_row.
    destruct (raw_getitem_present _ _
                (proj2 (read_row_contains names first "img") Himg))
      as [img Hget].
    rewrite Hget. simpl.
    destruct (reader_row_value _ _ _
                (read_row_is_reader_row names first) Hget)
      as [-> | [s ->]]; simpl;
      rewrite raw_getitem_absent; trivial;
      apply raw_contains_false_iff; intros Hc;
      apply raw_contains_true_iff, read_row_contains in Hc; now apply Hsec.
Qed.

Lemma raw_get_keywords_without_secondary_column_witness :
  (In "img" ["img"; "audio_path"] /\
   ~ In "secondary" ["img"; "audio_path"] /\
   exists line,
     In line [["cat.jpg"; "/d/s1/x/cat.wav"]] /\ Raw.blank line = false) /\
  Raw.get_keywords bare_file = Raw.Raise (Raw.KeyError (Some "secondary")).
Proof.
  assert (Hno : ~ In "secondary" ["img"; "audio_path"]).
  { intros [H | [H | []]]; discriminate H. }
  assert (Hline : exists line,
             In line [["cat.jpg"; "/d/s1/x/cat.wav"]] /\
             Raw.blank line = false).
  { exists ["cat.jpg"; "/d/s1/x/cat.wav"]. split; [now left | reflexivity]. }
  split; [split; [now left | split; assumption] |].
  apply (proj2 (raw_get_keywords_without_secondary_column
                  ["img"; "audio_path"] [["cat.jpg"; "/d/s1/x/cat.wav"]]
                  (or_introl eq_refl) Hno) Hline).
Defined.

(** X17.  On a table with the columns [img], [secondary] and
    [dominant] in which every line has at least as many fields as the
    header, [get_keywords] returns an index. *)
Theorem raw_get_keywords_completes :
  forall names lines,
    In "img" names -> In "secondary" names -> In "dominant" names ->
    complete_lines names lines ->
    exists index, Raw.get_keywords (names :: lines) = Raw.Ok index.
Proof.
  intros names lines Himg Hsec Hdom Hc. unfold Raw.get_keywords.
  apply complete_rows_total.
  - now apply DictReader_complete_rows.
  - apply Forall_forall. intros row Hrow.
    destruct (DictReader_rows _ _ _ Hrow) as [line [_ [_ ->]]].
    repeat split; now apply read_row_contains.
  - exact words_index_nil.
Qed.

Lemma raw_get_keywords_completes_witness :
  complete_lines ["img"; "audio_path"; "dominant"; "secondary"]
    [["cat.jpg"; "/d/s1/x/cat.wav"; "cat"; "kitten"]] /\
  exists index, Raw.get_keywords cat_file = Raw.Ok index.
Proof.
  assert (Hc : complete_lines ["img"; "audio_path"; "dominant"; "secondary"]
                 [["cat.jpg"; "/d/s1/x/cat.wav"; "cat"; "kitten"]]).
  { constructor; [right; simpl; lia | constructor]. }
  split; [exact Hc |].
  apply (raw_get_keywords_completes
           ["img"; "audio_path"; "dominant"; "secondary"]
           [["cat.jpg"; "/d/s1/x/cat.wav"; "cat"; "kitten"]]); trivial.
  - now left.
  - right. right. right. now left.
  - right. right. now left.
Defined.

(** ** More about [Raw.get_keywords] *)




(** X9.  Words are only ever taken over from an entry that is already
    stored: on a table whose header has the column [img], if no row has
    a secondary field that counts as true (each one is empty, or [None]
    on a short line), the index that is returned is empty. *)
Theorem raw_get_keywords_without_secondary_words :
  forall names lines,
    In "img" names ->
    Forall (fun row =>
              exists secondary,
                Raw.getitem row (Some "secondary") = Raw.Ok secondary /\
                Raw.truthy secondary = false)
           (Raw.DictReader (names :: lines)) ->
    Raw.get_keywords (names :: lines) = Raw.Ok [].
Proof.
  intros names lines Himg Hrows. unfold Raw.get_keywords.
  assert (Hhas : Forall (fun row =>
                           reader_row row /\
                           Raw.contains row (Some "img") = true)
                   (Raw.DictReader (names :: lines))).
  { apply Forall_forall. intros row Hrow.
    destruct (DictReader_rows _ _ _ Hrow) as [line [_ [_ ->]]].
    split; [apply read_row_is_reader_row | now apply read_row_contains]. }
  induction Hrows as [| row csv_reader [secondary [Hsec Hs]] _ IH]; simpl.
  - reflexivity.
  - inversion Hhas as [| ? ? [Hrow Hin] Hrest]; subst.
    destruct (raw_getitem_present _ _ Hin) as [img Hget].
    unfold Raw.get_keywords_row. rewrite Hget. simpl.
    destruct (reader_row_value _ _ _ Hrow Hget) as [-> | [s ->]]; simpl;
      rewrite Hsec; simpl; rewrite Hs; simpl; now apply IH.
Qed.

Lemma raw_get_keywords_without_secondary_words_witness :
  (In "img" ["img"; "audio_path"; "dominant"; "secondary"] /\
   Forall (fun row =>
             exists secondary,
               Raw.getitem row (Some "secondary") = Raw.Ok secondary /\
               Raw.truthy secondary = false)
          (Raw.DictReader wordless_file)) /\
  Raw.get_keywords wordless_file = Raw.Ok [].
Proof.
  assert (H : Forall (fun row =>
                        exists secondary,
                          Raw.getitem row (Some "secondary") =
                            Raw.Ok secondary /\
                          Raw.truthy secondary = false)
                (Raw.DictReader wordless_file)).
  { repeat constructor; eexists; split; reflexivity. }
  split; [split; [now left | exact H] |].
  apply (raw_get_keywords_without_secondary_words
           ["img"; "audio_path"; "dominant"; "secondary"]
           [["A"; "Data/rep1/trgt_audio/A.wav"; EmptyString; EmptyString];
            ["A_trial2"; "Data/rep1/trgt_audio/A2.wav"]]
           (or_introl eq_refl) H).
Defined.

(** ** The values of a row *)



(** ** The transcriber and the driver of [Raw] *)

Section RawServiceProperties.

Variable world : Type.
Variable recognize :
  world -> string -> list Raw.cell ->
  world * Raw.result (list Raw.SpeechRecognitionResult).

(** C1, as the code has it.  Whatever the service answers,
    [transcribe] looks at the first result segment only.  Without
    segments, or when the first segment has no keyword mapping or an
    empty one, it returns the record whose four fields
    [normalized_text], [start_time], [confidence] and [end_time] are
    the empty string, whatever the alternatives of the segment are.
    When the mapping is not empty, it returns the first spot listed
    under the first key of the mapping, as the service sent it, if
    there is one, and raises the index error if the list of that key
    is empty. *)
Theorem raw_transcribe_first_segment :
  forall w audio_path keywords w' results,
    recognize w audio_path keywords = (w', Raw.Ok results) ->
    (results = [] ->
     Raw.transcribe recognize w audio_path keywords =
       (w', Raw.Ok [("normalized_text", PyStr EmptyString);
                    ("start_time", PyStr EmptyString);
                    ("confidence", PyStr EmptyString);
                    ("end_time", PyStr EmptyString)])) /\
    (forall first rest,
        results = first :: rest ->
        (Raw.keywords_result first = None \/
         Raw.keywords_result first = Some [] ->
         Raw.transcribe recognize w audio_path keywords =
           (w', Raw.Ok [("normalized_text", PyStr EmptyString);
                        ("start_time", PyStr EmptyString);
                        ("confidence", PyStr EmptyString);
                        ("end_time", PyStr EmptyString)])) /\
        (forall key spot spots others,
            Raw.keywords_result first =
              Some ((key, spot :: spots) :: others) ->
            Raw.transcribe recognize w audio_path keywords =
              (w', Raw.Ok spot)) /\
        (forall key others,
            Raw.keywords_result first = Some ((key, []) :: others) ->
            Raw.transcribe recognize w audio_path keywords =
              (w', Raw.Raise Raw.IndexError))).
Proof.
  intros w audio_path keywords w' results Hservice.
  unfold Raw.transcribe. rewrite Hservice. simpl. split.
  - intros ->. reflexivity.
  - intros first rest ->.
    unfold Raw.transcribe_results, Raw.spotted, Raw.getitem_str.
    split; [| split].
    + intros [-> | ->]; reflexivity.
    + intros key spot spots others ->. simpl.
      now rewrite String.eqb_refl.
    + intros key others ->. simpl. now rewrite String.eqb_refl.
Qed.

Lemma raw_main_rows_app keywords st (done todo : list (Raw.rdict Raw.cell)) :
  Raw.main_rows recognize keywords st (done ++ todo) =
  match Raw.main_rows recognize keywords st done with
  | (st', Raw.Ok _) => Raw.main_rows recognize keywords st' todo
  | (st', Raw.Raise e) => (st', Raw.Raise e)
  end.
Proof.
  revert st. induction done as [| row done IH]; intros st; simpl.
  - reflexivity.
  - destruct (Raw.main_row recognize keywords st row) as [st1 [[] | e]].
    + apply IH.
    + reflexivity.
Qed.





End RawServiceProperties.

(** ** Concrete runs of [Raw] *)

Lemma raw_transcribe_first_segment_witness :
  three_item_service 0 "/d/s1/x/cat.wav"
    [Raw.Field "cat"; Raw.Field "kitten"] =
    (1, Raw.Ok [{| Raw.keywords_result := Some [("cat", [three_item_spot])];
                   Raw.alternatives := [];
                   Raw.final := true |}]) /\
  Raw.transcribe three_item_service 0 "/d/s1/x/cat.wav"
    [Raw.Field "cat"; Raw.Field "kitten"] =
    (1, Raw.Ok three_item_spot).
Proof.
  split; [reflexivity |].
  apply (proj1 (proj2 (proj2 (raw_transcribe_first_segment nat
                                three_item_service 0 "/d/s1/x/cat.wav"
                                [Raw.Field "cat"; Raw.Field "kitten"] 1 _
                                eq_refl) _ [] eq_refl))
           "cat" three_item_spot [] []).
  reflexivity.
Defined.

(** C1, as the claim has it, fails on an answer whose first keyword
    comes with an empty list of spots: the mapping is present and not
    empty, there is no first spot to return, and [transcribe] raises
    the index error. *)
Lemma no_spot_counterexample :
  Raw.transcribe no_spot_service 0 "/d/s1/x/wolf.wav"
    [Raw.Field "wolf"; Raw.Field "wolves"] = (1, Raw.Raise Raw.IndexError) /\
  ~ (forall w audio_path keywords w' first rest mapping,
        no_spot_service w audio_path keywords =
          (w', Raw.Ok (first :: rest)) ->
        Raw.keywords_result first = Some mapping -> mapping <> [] ->
        exists spot,
          Raw.transcribe no_spot_service w audio_path keywords =
            (w', Raw.Ok spot)).
Proof.
  split; [reflexivity |]. intros H.
  destruct (H 0 "/d/s1/x/wolf.wav" [Raw.Field "wolf"; Raw.Field "wolves"]
              1 _ [] [("wolf", [])] eq_refl eq_refl)
    as [spot Hspot]; [discriminate |]. discriminate Hspot.
Qed.



(** ** Tables with complete lines *)

Section RawOfDict.

Context {V W : Type} (g : V -> W).

Lemma raw_of_dict_contains (d : dict V) k :
  Raw.contains (raw_of_dict g d) (Some k) = contains d k.
Proof.
  unfold Raw.contains, contains, raw_of_dict.
  induction d as [| [k0 v0] d IH]; simpl; [reflexivity | now rewrite IH].
Qed.

Lemma raw_of_dict_getitem (d : dict V) k :
  Raw.getitem (raw_of_dict g d) (Some k) = raw_of_result g (getitem d k).
Proof.
  unfold raw_of_dict. induction d as [| [k0 v0] d IH]; simpl.
  - reflexivity.
  - destruct (String.eqb k0 k); [reflexivity | exact IH].
Qed.

Lemma raw_of_dict_setitem (d : dict V) k v :
  Raw.setitem (raw_of_dict g d) (Some k) (g v) =
  raw_of_dict g (setitem d k v).
Proof.
  unfold raw_of_dict. induction d as [| [k0 v0] d IH]; simpl.
  - reflexivity.
  - destruct (String.eqb k0 k); simpl; [reflexivity | now rewrite IH].
Qed.

Lemma raw_of_dict_keys (d : dict V) :
  Raw.keys (raw_of_dict g d) = map Some (keys d).
Proof.
  unfold Raw.keys, keys, raw_of_dict. rewrite !map_map. reflexivity.
Qed.

End RawOfDict.

Lemma raw_item_map {A B : Type} (g : A -> B) (l : list A) (i : nat) :
  Raw.item (map g l) i = raw_of_result g (item l i).
Proof.
  unfold Raw.item, item. rewrite nth_error_map.
  now destruct (nth_error l i).
Qed.

Lemma raw_find_same_of_index keywords img (imgs : list string) :
  Raw.find_same (raw_of_index keywords) (map Some imgs) (Raw.Field img) =
  raw_of_result (map Raw.Field) (find_same keywords imgs img).
Proof.
  induction imgs as [| k imgs IH]; simpl; [reflexivity |].
  unfold raw_of_index at 1. rewrite raw_of_dict_getitem.
  destruct (getitem keywords k) as [entry | e]; simpl; [| reflexivity].
  rewrite raw_item_map.
  destruct (item entry 0) as [w0 | e]; simpl; [| reflexivity].
  destruct (str_in w0 img); simpl; [reflexivity |].
  rewrite raw_item_map.
  destruct (item entry 1) as [w1 | e]; simpl; [| reflexivity].
  destruct (str_in w1 img); simpl; [reflexivity | exact IH].
Qed.

Lemma raw_get_keywords_row_of_index keywords row raw :
  same_fields row raw ->
  Raw.get_keywords_row (raw_of_index keywords) raw =
  raw_of_result raw_of_index (get_keywords_row keywords row).
Proof.
  intros Hsame. unfold Raw.get_keywords_row, get_keywords_row.
  rewrite (Hsame "img").
  destruct (getitem row "img") as [img | e]; simpl; [| reflexivity].
  unfold raw_of_index at 1. rewrite raw_of_dict_contains.
  destruct (contains keywords img); simpl; [reflexivity |].
  rewrite (Hsame "secondary").
  destruct (getitem row "secondary") as [secondary | e]; simpl;
    [| reflexivity].
  destruct (truthy secondary).
  - rewrite (Hsame "dominant").
    destruct (getitem row "dominant") as [dominant | e]; simpl;
      [| reflexivity].
    unfold raw_of_index.
    now rewrite <- (raw_of_dict_setitem (map Raw.Field)).
  - unfold raw_of_index at 2. rewrite raw_of_dict_keys.
    rewrite raw_find_same_of_index.
    destruct (find_same keywords (keys keywords) img) as [same | e]; simpl;
      [| reflexivity].
    destruct same as [| w0 same]; simpl; [reflexivity |].
    destruct same as [| w1 same]; simpl; [reflexivity |].
    unfold raw_of_index.
    now rewrite <- (raw_of_dict_setitem (map Raw.Field)).
Qed.

Lemma raw_get_keywords_rows_of_index csv_reader raws :
  Forall2 same_fields csv_reader raws ->
  forall keywords,
    Raw.get_keywords_rows (raw_of_index keywords) raws =
    raw_of_result raw_of_index (get_keywords_rows keywords csv_reader).
Proof.
  induction 1 as [| row raw csv_reader raws Hsame _ IH]; intros keywords;
    simpl; [reflexivity |].
  rewrite (raw_get_keywords_row_of_index keywords row raw Hsame).
  destruct (get_keywords_row keywords row) as [keywords' | e]; simpl;
    [apply IH | reflexivity].
Qed.

Lemma dict_zip_of_zip_row names line :
  Raw.dict_zip names line = raw_of_dict Raw.Field (zip_row names line).
Proof.
  unfold Raw.dict_zip, zip_row.
  change (@nil (Raw.key * Raw.cell))
    with (raw_of_dict Raw.Field (@nil (string * string))).
  generalize (@nil (string * string)) as acc.
  induction (combine names line) as [| [n x] l IH]; intros acc; simpl.
  - reflexivity.
  - rewrite (raw_of_dict_setitem Raw.Field). apply IH.
Qed.

Lemma read_row_same_fields names line :
  length names <= length line ->
  same_fields (zip_row names line) (Raw.read_row names line).
Proof.
  intros Hlen name. unfold Raw.read_row. rewrite dict_zip_of_zip_row.
  destruct (Nat.ltb (length names) (length line)).
  - assert (Hnone : Raw.contains
                      (raw_of_dict Raw.Field (zip_row names line)) None =
                    false).
    { unfold Raw.contains, raw_of_dict.
      induction (zip_row names line) as [| kv d IH]; simpl; trivial. }
    rewrite (raw_setitem_absent _ _ _ Hnone).
    destruct (contains (zip_row names line) name) eqn:E.
    + destruct (getitem_present _ _ E) as [v Hv]. rewrite Hv. simpl.
      assert (H := raw_of_dict_getitem Raw.Field (zip_row names line) name).
      rewrite Hv in H. simpl in H.
      clear - H. revert H.
      induction (raw_of_dict Raw.Field (zip_row names line))
        as [| [k0 v0] d IH]; simpl; [discriminate |].
      destruct (Raw.key_eqb k0 (Some name)); [trivial | exact IH].
    + rewrite raw_getitem_app_r
        by (now rewrite (raw_of_dict_contains Raw.Field)).
      rewrite (getitem_absent _ _ E). reflexivity.
  - rewrite skipn_all2 by exact Hlen. simpl.
    apply raw_of_dict_getitem.
Qed.

(** X16.  On a table in which every line has at least as many fields
    as the header, the program with string values and the program of
    [Raw] build the same index, and raise the same error when a column
    is missing: what is proved about [get_keywords] on rows with string
    values holds for the rows that [csv.DictReader] gives for such a
    table. *)
Theorem raw_get_keywords_of_complete_table :
  forall names lines,
    complete_lines names lines ->
    Raw.get_keywords (names :: lines) =
    raw_of_result raw_of_index (get_keywords (table_of_file names lines)).
Proof.
  intros names lines Hc. unfold Raw.get_keywords, get_keywords.
  apply (raw_get_keywords_rows_of_index _ _) with (keywords := []).
  simpl. unfold complete_lines in Hc.
  induction Hc as [| line lines Hline _ IH]; simpl; [constructor |].
  destruct (Raw.blank line) eqn:Hb; simpl; [exact IH |].
  constructor; [| exact IH].
  apply read_row_same_fields. destruct Hline as [H | H]; [congruence | exact H].
Qed.

Lemma raw_get_keywords_of_complete_table_witness :
  complete_lines ["img"; "audio_path"; "dominant"; "secondary"]
    [["A"; "Data/rep1/trgt_audio/A.wav"; "wolf"; "wolves"]; [];
     ["wolf_trial2"; "Data/rep1/trgt_audio/A2.wav"; EmptyString;
      EmptyString; "a comment"]] /\
  Raw.get_keywords
    [["img"; "audio_path"; "dominant"; "secondary"];
     ["A"; "Data/rep1/trgt_audio/A.wav"; "wolf"; "wolves"]; [];
     ["wolf_trial2"; "Data/rep1/trgt_audio/A2.wav"; EmptyString;
      EmptyString; "a comment"]] =
    Raw.Ok [(Some "A", [Raw.Field "wolf"; Raw.Field "wolves"]);
            (Some "wolf_trial2", [Raw.Field "wolf"; Raw.Field "wolves"])].
Proof.
  assert (Hc : complete_lines
                 ["img"; "audio_path"; "dominant"; "secondary"]
                 [["A"; "Data/rep1/trgt_audio/A.wav"; "wolf"; "wolves"]; [];
                  ["wolf_trial2"; "Data/rep1/trgt_audio/A2.wav"; EmptyString;
                   EmptyString; "a comment"]]).
  { constructor; [right; simpl; lia |].
    constructor; [now left |].
    constructor; [right; simpl; lia | constructor]. }
  split; [exact Hc |].
  rewrite (raw_get_keywords_of_complete_table _ _ Hc). reflexivity.
Defined.
